(** * The concentrated-liquidity repositioning planner ([CrocReposition])

    A shallow embedding of the planner class of
    [LeaderboardPointsPage.types.ts] and of the properties its
    specification states about it.

    Conventions of the embedding.
    - A JavaScript [number] that carries a price, a fraction or a slippage
      tolerance is an IEEE double, represented by the rational it holds
      ([Q]); [+], [-] and [*] on numbers are the exact operations followed
      by the rounding of binary64 ([round64]: to nearest, ties to even).
      [NaN], the infinities, overflow and the sign of zero are outside the
      model.  Ticks are integers ([Z]).
    - An ethers [BigNumber] is an integer ([Z]); [mul] and [sub] are exact,
      [div] truncates towards zero ([Z.quot]).
    - An [async] method is a computation in the error monad [result]: a
      resolved promise is [OK v], a rejected one is [Err e]; [await] is
      the monad's bind, so the first rejection met in evaluation order is
      the one the caller sees.
    - An object that the source mutates through a reference it obtained
      earlier (a pool leg, a liquidity sub-directive) is addressed by its
      position inside the directive. *)

From Stdlib Require Import ZArith QArith Qround Qminmax Qpower Qreduction.
From Stdlib Require Import Lia Lqa String DecimalString.
From stdpp Require Import base list.

#[local] Open Scope Z_scope.

(** ** Errors and the promise monad *)

Inductive error : Type :=
  | PositionNotOutOfRange   (* Error('Rebalance position not out of range') *)
  | NumericFault            (* BigNumber.from on an unsafe number *)
  | RemoteReadFailure       (* a rejected read of the pool, the swap planner, the gas estimate *)
  | SubmissionFailure.      (* a rejected submission *)

Inductive result (A : Type) : Type :=
  | OK (a : A)
  | Err (e : error).

Arguments OK {A} a.
Arguments Err {A} e.

Definition bind {A B : Type} (c : result A) (k : A -> result B) : result B :=
  match c with
  | OK a => k a
  | Err e => Err e
  end.

Definition then_ {A B : Type} (c : result A) (f : A -> B) : result B :=
  bind c (fun a => OK (f a)).

Declare Scope promise_scope.
Delimit Scope promise_scope with promise.
Notation "'await' x <- c ;; k" := (bind c (fun x => k))
  (at level 10, x name, c at level 99, k at level 200) : promise_scope.
Notation "'await' ' pat <- c ;; k" := (bind c (fun pat => k))
  (at level 10, pat pattern, c at level 99, k at level 200) : promise_scope.
#[local] Open Scope promise_scope.

Definition failed {A : Type} (c : result A) : Prop :=
  exists e, c = Err e.

(** ** Double-precision arithmetic

    The numbers of the source are binary64 doubles: 53 significant bits,
    exponents down to the subnormal quantum [2 ^ -1074].  A double is
    represented by its value; an arithmetic operation of the source is the
    exact operation on the values followed by [round64]. *)

Definition pow2 (e : Z) : Q := (2 ^ e)%Q.

(** The integer [k] with [2 ^ k <= x < 2 ^ (k + 1)], for a positive [x]. *)
Definition ilog2 (x : Q) : Z :=
  let k := Z.log2 (Qnum x) - Z.log2 (Zpos (Qden x)) in
  if Qle_bool (pow2 k) x then k else k - 1.

(** The exponent of the last significant bit of the doubles around a
    positive [x]. *)
Definition quantumExponent (x : Q) : Z := Z.max (ilog2 x - 52) (-1074).

(** The nearest integer, a tie going to the even one. *)
Definition roundHalfEven (m : Q) : Z :=
  let f := Qfloor m in
  match (m - inject_Z f ?= 1 # 2)%Q with
  | Lt => f
  | Gt => f + 1
  | Eq => if Z.even f then f else f + 1
  end.

Definition roundMagnitude (x : Q) : Q :=
  (inject_Z (roundHalfEven (x / pow2 (quantumExponent x)))
   * pow2 (quantumExponent x))%Q.

(** The double nearest to [x]; rounding to nearest even is symmetric, so
    a negative [x] is rounded through its magnitude. *)
Definition round64 (x : Q) : Q :=
  Qred (if Qle_bool 0 x then roundMagnitude x else - roundMagnitude (- x)).

(** [x + y], [x - y] and [x * y] on numbers. *)
Definition fadd (x y : Q) : Q := round64 (x + y).
Definition fsub (x y : Q) : Q := round64 (x - y).
Definition fmul (x y : Q) : Q := round64 (x * y).

(** ** Tick-to-price conversion *)

Module TickMath.
Section LogScale.

(** The step of the logarithmic tick scale: one tick multiplies the price
    by [tickBase]. *)
Variable tickBase : Q.

(** Modelled from the spec: [tickToPrice] is imported from [../utils],
    which is not among the sources.  The specification describes a tick as
    a discretized integer index mapping to a price via a fixed logarithmic
    scale, the price being a positive rational; hence
    [tickToPrice tick = tickBase ^ tick] for the fixed step of the scale. *)
Definition tickToPrice (tick : Z) : Q := (tickBase ^ tick)%Q.

End LogScale.
End TickMath.

(** ** Data model *)

(** [type TickRange = [number, number]]: lower tick, upper tick. *)
Definition TickRange : Type := (Z * Z)%type.

(** [mint: TickRange | AmbientRange], with [type AmbientRange = 'ambient']. *)
Inductive MintTarget : Type :=
  | Ambient
  | MintTicks (range : TickRange).

Record RepositionTarget : Type := {
  target_mint : MintTarget;
  target_burn : TickRange;
  target_liquidity : Z
}.

(** [interface CrocRepositionOpts { impact?: number }]. *)
Record CrocRepositionOpts : Type := {
  opts_impact : option Q
}.

Record CrocTokenView : Type := {
  tokenAddr : string
}.

(** What the planner reads from its [CrocPoolView]: the two tokens, the
    promises returned by [spotPrice()] and [spotTick()], and, from the
    pool's context, [chain.poolIndex] and [chain.proxyPaths.long]. *)
Record CrocPoolView : Type := {
  baseToken : CrocTokenView;
  quoteToken : CrocTokenView;
  pool_spotPrice : result Q;
  pool_spotTick : result Z;
  chain_poolIndex : Z;
  proxyPaths_long : Z
}.

Record CrocReposition : Type := {
  pool : CrocPoolView;
  burnRange : TickRange;
  mintRange : MintTarget;
  liquidity : Z;
  spotPrice : result Q;
  spotTick : result Z;
  impact : Q
}.

(** [const DEFAULT_REBAL_SLIPPAGE = 0.02]: the double the literal denotes. *)
Definition DEFAULT_REBAL_SLIPPAGE : Q := round64 (2 # 100).

(** JavaScript truthiness of a number: zero is falsy.  ([NaN], falsy as
    well, is outside the model: see the conventions.) *)
Definition truthy (x : Q) : bool := negb (Qeq_bool x 0).

(** [opts?.impact || DEFAULT_REBAL_SLIPPAGE] *)
Definition impact_or_default (opts : CrocRepositionOpts) : Q :=
  match opts_impact opts with
  | Some i => if truthy i then i else DEFAULT_REBAL_SLIPPAGE
  | None => DEFAULT_REBAL_SLIPPAGE
  end.

(** The constructor; [opts] defaults to [{}].  [target.liquidity] is a
    [BigNumberish], taken here as the integer it denotes. *)
Definition no_opts : CrocRepositionOpts := {| opts_impact := None |}.

Definition new_CrocReposition (pl : CrocPoolView) (target : RepositionTarget)
    (opts : CrocRepositionOpts) : CrocReposition :=
  {| pool := pl;
     burnRange := target_burn target;
     mintRange := target_mint target;
     liquidity := target_liquidity target;
     spotPrice := pool_spotPrice pl;
     spotTick := pool_spotTick pl;
     impact := impact_or_default opts |}.

(** ** ethers' BigNumber *)

Definition MAX_SAFE : Z := 0x1fffffffffffff.

(** [BigNumber.from(value)] for a [number] that is already an integer:
    ethers rejects it with a numeric fault unless it is a safe integer. *)
Definition BigNumber_from (value : Z) : result Z :=
  if (MAX_SAFE <=? value) || (value <=? - MAX_SAFE)
  then Err NumericFault
  else OK value.

(** [a.div(b)]: truncated division. *)
Definition BigNumber_div (a b : Z) : Z := Z.quot a b.

(** ** The order directive

    [OrderDirective] and [PoolDirective] are imported from
    [../encoding/longform], which is not among the sources.  The fields
    below are the ones the planner reads or writes. *)

Record SettlementDirective : Type := {
  token : string;
  limitQty : Z
}.

Record SwapDirective : Type := {
  isBuy : bool;
  inBaseQty : bool;
  swap_rollType : Z;
  qty : Z;
  limitPrice : Z
}.

Record ChainingFlags : Type := {
  swapDefer : bool
}.

(** The liquidity sub-directive of a pool leg: a range burn, a range mint
    or an ambient mint, each with its liquidity and its roll type. *)
Inductive LiquidityDirective : Type :=
  | RangeBurn (lowTick highTick liq rollType : Z)
  | RangeMint (lowTick highTick liq rollType : Z)
  | AmbientMint (liq rollType : Z).

Record PoolDirective : Type := {
  poolIdx : Z;
  passive : option LiquidityDirective;
  swap : SwapDirective;
  chain : ChainingFlags
}.

Record HopDirective : Type := {
  settlement : SettlementDirective;
  pools : list PoolDirective
}.

Record OrderDirective : Type := {
  open : SettlementDirective;
  hops : list HopDirective
}.

(** A reference to a pool leg held by the caller: the position of its hop
    and its own position among that hop's pool legs. *)
Definition PoolRef : Type := (nat * nat)%type.

Definition blankSwap : SwapDirective :=
  {| isBuy := false; inBaseQty := false; swap_rollType := 0; qty := 0;
     limitPrice := 0 |}.

Definition blankPool (idx : Z) : PoolDirective :=
  {| poolIdx := idx; passive := None; swap := blankSwap;
     chain := {| swapDefer := false |} |}.

Definition lastIndex {A : Type} (l : list A) : nat := pred (length l).

(** Field assignments, one per assignment statement of the source. *)

Definition set_limitQty (q : Z) (s : SettlementDirective) : SettlementDirective :=
  {| token := token s; limitQty := q |}.

Definition set_settlement_limitQty (q : Z) (h : HopDirective) : HopDirective :=
  {| settlement := set_limitQty q (settlement h); pools := pools h |}.

Definition set_swap (f : SwapDirective -> SwapDirective) (pl : PoolDirective)
    : PoolDirective :=
  {| poolIdx := poolIdx pl; passive := passive pl; swap := f (swap pl);
     chain := chain pl |}.

Definition set_swapDefer (b : bool) (pl : PoolDirective) : PoolDirective :=
  {| poolIdx := poolIdx pl; passive := passive pl; swap := swap pl;
     chain := {| swapDefer := b |} |}.

Definition set_swap_rollType (r : Z) (s : SwapDirective) : SwapDirective :=
  {| isBuy := isBuy s; inBaseQty := inBaseQty s; swap_rollType := r;
     qty := qty s; limitPrice := limitPrice s |}.

Definition set_qty (q : Z) (s : SwapDirective) : SwapDirective :=
  {| isBuy := isBuy s; inBaseQty := inBaseQty s;
     swap_rollType := swap_rollType s; qty := q; limitPrice := limitPrice s |}.

Definition set_isBuy (b : bool) (s : SwapDirective) : SwapDirective :=
  {| isBuy := b; inBaseQty := inBaseQty s; swap_rollType := swap_rollType s;
     qty := qty s; limitPrice := limitPrice s |}.

Definition set_inBaseQty (b : bool) (s : SwapDirective) : SwapDirective :=
  {| isBuy := isBuy s; inBaseQty := b; swap_rollType := swap_rollType s;
     qty := qty s; limitPrice := limitPrice s |}.

Definition set_limitPrice (p : Z) (s : SwapDirective) : SwapDirective :=
  {| isBuy := isBuy s; inBaseQty := inBaseQty s;
     swap_rollType := swap_rollType s; qty := qty s; limitPrice := p |}.

Definition set_passive (l : option LiquidityDirective) (pl : PoolDirective)
    : PoolDirective :=
  {| poolIdx := poolIdx pl; passive := l; swap := swap pl; chain := chain pl |}.

Definition set_liq_rollType (r : Z) (l : LiquidityDirective) : LiquidityDirective :=
  match l with
  | RangeBurn lo hi liq _ => RangeBurn lo hi liq r
  | RangeMint lo hi liq _ => RangeMint lo hi liq r
  | AmbientMint liq _ => AmbientMint liq r
  end.

(** Mutation of the pool leg a reference points to, inside the directive
    that owns it. *)
Definition alterPool (f : PoolDirective -> PoolDirective) (r : PoolRef)
    (d : OrderDirective) : OrderDirective :=
  {| open := open d;
     hops := list_alter
               (fun h => {| settlement := settlement h;
                            pools := list_alter f (snd r) (pools h) |})
               (fst r) (hops d) |}.

(** The pool leg the liquidity builders write to: the last pool leg of the
    last hop. *)
Definition currentPool (d : OrderDirective) : PoolRef :=
  let h := lastIndex (hops d) in
  (h, lastIndex (from_option pools [] (hops d !! h))).

Section Builder.

(** The limit quantity a settlement leg starts with. *)
Variable defaultLimitQty : Z.

Definition simpleSettle (tok : string) : SettlementDirective :=
  {| token := tok; limitQty := defaultLimitQty |}.

(** Modelled from the spec: the constructor of [OrderDirective], absent
    from the sources.  A directive starts with its open token and no hop. *)
Definition new_OrderDirective (openToken : string) : OrderDirective :=
  {| open := simpleSettle openToken; hops := [] |}.

(** Modelled from the spec: [OrderDirective.appendHop], absent from the
    sources.  A hop consists of a settlement leg for the next token and of
    pool legs, none yet; hops keep the order in which they are appended. *)
Definition appendHop (nextToken : string) (d : OrderDirective) : OrderDirective :=
  {| open := open d;
     hops := hops d ++ [ {| settlement := simpleSettle nextToken; pools := [] |} ] |}.

End Builder.

(** Modelled from the spec: [OrderDirective.appendPool], absent from the
    sources.  A pool leg for the given pool index is appended to the last
    hop, carrying no sub-directive yet; the caller receives a reference to
    it.  (The planner appends a hop first; without one there is no leg to
    append to and the directive is left as it is.) *)
Definition appendPool (idx : Z) (d : OrderDirective) : OrderDirective * PoolRef :=
  let h := lastIndex (hops d) in
  let d' :=
    {| open := open d;
       hops := list_alter
                 (fun hop => {| settlement := settlement hop;
                                pools := pools hop ++ [blankPool idx] |})
                 h (hops d) |} in
  (d', currentPool d').

(** Modelled from the spec: [OrderDirective.appendRangeMint], absent from
    the sources.  The range mint becomes the liquidity sub-directive of the
    pool leg appended last; the caller receives a reference to the leg
    that holds it.  The roll type starts at 0 (a fixed quantity). *)
Definition appendRangeMint (lowTick highTick liq : Z) (d : OrderDirective)
    : OrderDirective * PoolRef :=
  let r := currentPool d in
  (alterPool (set_passive (Some (RangeMint lowTick highTick liq 0))) r d, r).

(** Modelled from the spec: [OrderDirective.appendRangeBurn], absent from
    the sources; as [appendRangeMint], for a range burn. *)
Definition appendRangeBurn (lowTick highTick liq : Z) (d : OrderDirective)
    : OrderDirective * PoolRef :=
  let r := currentPool d in
  (alterPool (set_passive (Some (RangeBurn lowTick highTick liq 0))) r d, r).

(** Modelled from the spec: [OrderDirective.appendAmbientMint], absent
    from the sources; as [appendRangeMint], for an ambient mint. *)
Definition appendAmbientMint (liq : Z) (d : OrderDirective)
    : OrderDirective * PoolRef :=
  let r := currentPool d in
  (alterPool (set_passive (Some (AmbientMint liq 0))) r d, r).

(** [mint.rollType = r], through the reference the builder returned. *)
Definition assign_mint_rollType (r : Z) (mint : PoolRef) (d : OrderDirective)
    : OrderDirective :=
  alterPool (fun pl => set_passive (option_map (set_liq_rollType r) (passive pl)) pl)
            mint d.

(** [directive.open.limitQty = q] *)
Definition assign_open_limitQty (q : Z) (d : OrderDirective) : OrderDirective :=
  {| open := set_limitQty q (open d); hops := hops d |}.

(** [directive.hops[0].settlement.limitQty = q] *)
Definition assign_hop0_limitQty (q : Z) (d : OrderDirective) : OrderDirective :=
  {| open := open d;
     hops := list_alter (set_settlement_limitQty q) 0%nat (hops d) |}.

(** ** Collaborators of the planner

    Everything the class imports or calls that is not defined in its own
    file: the liquidity mathematics, the token views, the swap planner,
    the directive encoder and the settlement contract.  The planner is
    verified for every implementation of this interface. *)

Class Collaborators : Type := {
  (* ../utils *)
  tickToPrice : Z -> Q;
  encodeCrocPrice : Q -> Z;
  GAS_PADDING : Z;
  (* ../utils/liquidity: spot price, (liquidity,) lower price, upper price *)
  concDepositBalance : Q -> Q -> Q -> Q;
  baseTokenForConcLiq : Q -> Z -> Q -> Q -> Z;
  quoteTokenForConcLiq : Q -> Z -> Q -> Q -> Z;
  (* ../tokens: CrocTokenView.toDisplay *)
  toDisplay : CrocTokenView -> Z -> result string;
  (* ../swap: new CrocSwapPlan(sell, buy, qty, qtyIsBuy, poolIndex, _,
     { slippage }).calcImpact(), projected on buyQty *)
  calcImpact_buyQty :
    CrocTokenView -> CrocTokenView -> Z -> bool -> Z -> Q -> result string;
  (* ../encoding/longform *)
  defaultLimitQty : Z;
  encodeBytes : OrderDirective -> string;
  (* the settlement contract, cntx.dex *)
  TransactionResponse : Type;
  StaticResult : Type;
  estimateGas_userCmd : Z -> string -> result Z;
  userCmd : Z -> string -> Z -> result TransactionResponse;
  callStatic_userCmd : Z -> string -> result StaticResult;
  (* the global parseFloat *)
  parseFloat : string -> Q
}.

(** ** The planner's methods *)

Section Planner.

Context `{Collaborators}.

Definition isBaseOutOfRange (this : CrocReposition) : result bool :=
  await spot <- spotTick this ;;
  if snd (burnRange this) <=? spot then OK true
  else if spot <? fst (burnRange this) then OK false
  else Err PositionNotOutOfRange.

Definition balancePercent (this : CrocReposition) : result Q :=
  match mintRange this with
  | Ambient => OK (1 # 2)
  | MintTicks range =>
      await price <- spotPrice this ;;
      let baseQuoteBal :=
        concDepositBalance price (tickToPrice (fst range)) (tickToPrice (snd range)) in
      await base <- isBaseOutOfRange this ;;
      OK (if base then fsub 1 baseQuoteBal else baseQuoteBal)
  end.

Definition currentCollateral (this : CrocReposition) : result Z :=
  await base <- isBaseOutOfRange this ;;
  let tokenFn := if base then baseTokenForConcLiq else quoteTokenForConcLiq in
  await price <- spotPrice this ;;
  OK (tokenFn price (liquidity this)
        (tickToPrice (fst (burnRange this)))
        (tickToPrice (snd (burnRange this)))).

Definition swapFraction (this : CrocReposition) : result Z :=
  await bal <- balancePercent this ;;
  let swapProp := fadd bal (impact this) in
  BigNumber_from (Qfloor (fmul (Qmin swapProp 1) 10000)).

Definition convertCollateral (this : CrocReposition) : result Z :=
  await balance <- swapFraction this ;;
  await collat <- currentCollateral this ;;
  OK (BigNumber_div (collat * balance) 10000).

(** The local [collat] of [mintInput]: the remainder in smallest units,
    before the conversion to a display string. *)
Definition mintInput_collat (this : CrocReposition) : result Z :=
  await current <- currentCollateral this ;;
  await converted <- convertCollateral this ;;
  OK (current - converted).

Definition mintInput (this : CrocReposition) : result string :=
  await collat <- mintInput_collat this ;;
  await base <- isBaseOutOfRange this ;;
  if base then toDisplay (baseToken (pool this)) collat
  else toDisplay (quoteToken (pool this)) collat.

Definition pivotTokens (this : CrocReposition)
    : result (CrocTokenView * CrocTokenView) :=
  await base <- isBaseOutOfRange this ;;
  OK (if base then (baseToken (pool this), quoteToken (pool this))
      else (quoteToken (pool this), baseToken (pool this))).

Definition swapOutput (this : CrocReposition) : result string :=
  await ' (sellToken, buyToken) <- pivotTokens this ;;
  await sellQty <- convertCollateral this ;;
  calcImpact_buyQty sellToken buyToken sellQty false
    (chain_poolIndex (pool this)) (impact this).

Definition postBalance (this : CrocReposition) : result (Q * Q) :=
  let outside := then_ (mintInput this) parseFloat in
  let inside := then_ (swapOutput this) parseFloat in
  await base <- isBaseOutOfRange this ;;
  if base
  then await o <- outside ;; await i <- inside ;; OK (o, i)
  else await i <- inside ;; await o <- outside ;; OK (i, o).

(** [setupSwap(pool)]: [pool] is the reference [appendPool] returned, and
    every assignment lands in the directive that owns the leg. *)
Definition setupSwap (this : CrocReposition) (pl : PoolRef) (d : OrderDirective)
    : result OrderDirective :=
  let d := alterPool (set_swapDefer true) pl d in
  let d := alterPool (set_swap (set_swap_rollType 4)) pl d in
  await fraction <- swapFraction this ;;
  let d := alterPool (set_swap (set_qty fraction)) pl d in
  await sellBase <- isBaseOutOfRange this ;;
  let d := alterPool (set_swap (set_isBuy sellBase)) pl d in
  let d := alterPool (set_swap (set_inBaseQty sellBase)) pl d in
  let priceMult := if sellBase then fadd 1 (impact this) else fsub 1 (impact this) in
  await price <- spotPrice this ;;
  OK (alterPool (set_swap (set_limitPrice (encodeCrocPrice (fmul price priceMult)))) pl d).

Definition formatDirective (this : CrocReposition) : result OrderDirective :=
  await ' (openToken, closeToken) <- pivotTokens this ;;
  let directive := new_OrderDirective defaultLimitQty (tokenAddr openToken) in
  let directive := appendHop defaultLimitQty (tokenAddr closeToken) directive in
  let '(directive, pl) := appendPool (chain_poolIndex (pool this)) directive in
  let '(directive, _) :=
    appendRangeBurn (fst (burnRange this)) (snd (burnRange this))
      (liquidity this) directive in
  await directive <- setupSwap this pl directive ;;
  let '(directive, _) := appendPool (chain_poolIndex (pool this)) directive in
  let '(directive, mint) :=
    match mintRange this with
    | Ambient => appendAmbientMint 0 directive
    | MintTicks range => appendRangeMint (fst range) (snd range) 0 directive
    end in
  let directive := assign_mint_rollType 5 mint directive in
  let directive := assign_open_limitQty 0 directive in
  let directive := assign_hop0_limitQty 0 directive in
  OK directive.

Definition rebal (this : CrocReposition) : result TransactionResponse :=
  await directive <- formatDirective this ;;
  let path := proxyPaths_long (pool this) in
  await gasEst <- estimateGas_userCmd path (encodeBytes directive) ;;
  userCmd path (encodeBytes directive) (gasEst + GAS_PADDING).

Definition simStatic (this : CrocReposition) : result StaticResult :=
  await directive <- formatDirective this ;;
  let path := proxyPaths_long (pool this) in
  callStatic_userCmd path (encodeBytes directive).

End Planner.

(** ** Vocabulary of the specification *)

(** The snapshot taken at construction was read successfully. *)
Definition spotState (this : CrocReposition) (price : Q) (tick : Z) : Prop :=
  spotPrice this = OK price /\ spotTick this = OK tick.

(** [TickRange] invariant of the data model: lower tick below upper tick. *)
Definition validRange (r : TickRange) : Prop := fst r < snd r.

(** The three positions of a spot tick with respect to a range. *)
Definition aboveRange (r : TickRange) (tick : Z) : Prop := snd r <= tick.
Definition belowRange (r : TickRange) (tick : Z) : Prop := tick < fst r.
Definition insideRange (r : TickRange) (tick : Z) : Prop :=
  fst r <= tick /\ tick < snd r.

(** A position that has left its range: the direction test returns. *)
Definition outOfRange (r : TickRange) (tick : Z) : Prop :=
  aboveRange r tick \/ belowRange r tick.

(** The number handed to [BigNumber.from] when the exact sum of the
    balance fraction and the tolerance is [sum]:
    [Math.floor(Math.min(swapProp, 1.0) * 10000)] for [swapProp] the
    double nearest to [sum]. *)
Definition scaledFraction (sum : Q) : Z :=
  Qfloor (fmul (Qmin (round64 sum) 1) 10000).

(** Pool-leg occurrences of a directive, in order. *)
Definition poolLegs (d : OrderDirective) : list PoolDirective :=
  flat_map pools (hops d).

Definition SwapDirective_eqb (a b : SwapDirective) : bool :=
  Bool.eqb (isBuy a) (isBuy b) && Bool.eqb (inBaseQty a) (inBaseQty b)
  && (swap_rollType a =? swap_rollType b) && (qty a =? qty b)
  && (limitPrice a =? limitPrice b).

Definition carriesBurn (pl : PoolDirective) : bool :=
  match passive pl with
  | Some (RangeBurn _ _ _ _) => true
  | _ => false
  end.

Definition carriesMint (pl : PoolDirective) : bool :=
  match passive pl with
  | Some (RangeMint _ _ _ _) | Some (AmbientMint _ _) => true
  | _ => false
  end.

(** A leg carries a swap once [setupSwap] has written to the blank swap
    record the leg was appended with. *)
Definition carriesSwap (pl : PoolDirective) : bool :=
  negb (SwapDirective_eqb (swap pl) blankSwap).

(** The ordering the specification words as three successive pool-leg
    occurrences: burn before swap before mint. *)
Definition burnSwapMintOnSuccessiveLegs (d : OrderDirective) : Prop :=
  exists (i j k : nat) (bl sl ml : PoolDirective),
    poolLegs d !! i = Some bl /\ carriesBurn bl = true /\
    poolLegs d !! j = Some sl /\ carriesSwap sl = true /\
    poolLegs d !! k = Some ml /\ carriesMint ml = true /\
    (i < j)%nat /\ (j < k)%nat.

Section Assumptions.

Context `{Collaborators}.

(** What the specification promises of [concDepositBalance]: a fraction in
    [0, 1].  Only the call the planner makes is constrained. *)
Definition depositBalanceIsFraction (this : CrocReposition) : Prop :=
  match mintRange this, spotPrice this with
  | MintTicks range, OK price =>
      (0 <= concDepositBalance price (tickToPrice (fst range))
              (tickToPrice (snd range)) <= 1)%Q
  | _, _ => True
  end.

(** What the specification promises of [baseTokenForConcLiq] and
    [quoteTokenForConcLiq]: absolute quantities.  Only the calls the
    planner makes are constrained. *)
Definition collateralIsAbsolute (this : CrocReposition) : Prop :=
  forall price, spotPrice this = OK price ->
    0 <= baseTokenForConcLiq price (liquidity this)
           (tickToPrice (fst (burnRange this)))
           (tickToPrice (snd (burnRange this))) /\
    0 <= quoteTokenForConcLiq price (liquidity this)
           (tickToPrice (fst (burnRange this)))
           (tickToPrice (snd (burnRange this))).

End Assumptions.

(** ** The convert page: the token a price is quoted in

    The [priceToken] memo of [ConvertPage.tsx]; the list
    [SMART_ROUTER_STABLECOINS] comes from [ConvertPage.constants], which is
    not among the sources, and is a parameter. *)

Module ConvertPage.

(** JavaScript truthiness of a string: only the empty string is falsy. *)
Definition truthyString (s : string) : bool := negb (String.eqb s "").

(** [array.find(token => token === wanted)]: the first matching element,
    or [undefined]. *)
Definition find_token (wanted : string) (tokens : list string) : option string :=
  List.find (fun token => String.eqb token wanted) tokens.

Definition priceToken (SMART_ROUTER_STABLECOINS : list string)
    (destinationToken sourceToken : string) (priceInQuote : bool) : string :=
  if negb (truthyString destinationToken) then sourceToken
  else if priceInQuote
          || match find_token destinationToken SMART_ROUTER_STABLECOINS with
             | Some token => truthyString token
             | None => false
             end
  then destinationToken
  else sourceToken.

End ConvertPage.

(** ** Worked scenarios

    The scenarios of the specification: burn range [100, 200], liquidity
    1,000,000, the spot tick at 250, 50 or 150.  The collaborators are
    simple stand-ins, enough to run the planner; prices, fractions and
    tolerances are the doubles nearest to the decimals written. *)

Module Scenario.

Definition printZ (z : Z) : string :=
  NilZero.string_of_int (Z.to_int z).

Definition readZ (s : string) : Z :=
  match NilZero.int_of_string s with
  | Some i => Z.of_int i
  | None => 0
  end.

#[global] Instance standIns : Collaborators := {|
  tickToPrice := fun tick => round64 (TickMath.tickToPrice (10001 # 10000) tick);
  encodeCrocPrice := fun price => Qfloor (price * 1000000);
  GAS_PADDING := 30000;
  concDepositBalance := fun price lower upper =>
    round64 (Qmax 0 (Qmin 1 ((upper - price) / (upper - lower))));
  baseTokenForConcLiq := fun _ liq lower upper =>
    Z.max 0 (Qfloor (inject_Z liq * (upper - lower)));
  quoteTokenForConcLiq := fun _ liq lower upper =>
    Z.max 0 (Qfloor (inject_Z liq * (/ lower - / upper)));
  toDisplay := fun _ amount => OK (printZ amount);
  calcImpact_buyQty := fun _ _ sellQty _ _ slippage =>
    OK (printZ (Qfloor (inject_Z sellQty * (1 - slippage))));
  defaultLimitQty := 2 ^ 125;
  encodeBytes := fun d => (token (open d) ++ ":" ++ printZ (Z.of_nat (length (poolLegs d))))%string;
  TransactionResponse := Z;
  StaticResult := string;
  estimateGas_userCmd := fun _ _ => OK 21000;
  userCmd := fun _ _ gasLimit => OK gasLimit;
  callStatic_userCmd := fun _ bytes => OK bytes;
  parseFloat := fun s => inject_Z (readZ s)
|}.

Definition poolAt (price : Q) (tick : Z) : CrocPoolView :=
  {| baseToken := {| tokenAddr := "0xBA5E" |};
     quoteToken := {| tokenAddr := "0xC0DE" |};
     pool_spotPrice := OK (round64 price);
     pool_spotTick := OK tick;
     chain_poolIndex := 420;
     proxyPaths_long := 4 |}.

Definition toAmbient : RepositionTarget :=
  {| target_mint := Ambient; target_burn := (100, 200);
     target_liquidity := 1000000 |}.

Definition toRange : RepositionTarget :=
  {| target_mint := MintTicks (200, 300); target_burn := (100, 200);
     target_liquidity := 1000000 |}.

(** Spot tick 250: above the burn range. *)
Definition above : CrocReposition :=
  new_CrocReposition (poolAt (1025 # 1000) 250) toAmbient no_opts.

Definition aboveToRange : CrocReposition :=
  new_CrocReposition (poolAt (1025 # 1000) 250) toRange no_opts.

(** Spot tick 50: below the burn range. *)
Definition below : CrocReposition :=
  new_CrocReposition (poolAt (1005 # 1000) 50) toAmbient no_opts.

(** Spot tick 150: inside the burn range. *)
Definition inside : CrocReposition :=
  new_CrocReposition (poolAt (1015 # 1000) 150) toAmbient no_opts.

Definition insideToRange : CrocReposition :=
  new_CrocReposition (poolAt (1015 # 1000) 150) toRange no_opts.

(** A caller passing a negative tolerance. *)
Definition aboveNegativeImpact : CrocReposition :=
  new_CrocReposition (poolAt (1025 # 1000) 250) toAmbient
    {| opts_impact := Some (-1)%Q |}.

(** Pools whose reads may have been rejected. *)
Definition poolReading (price : result Q) (tick : result Z) : CrocPoolView :=
  {| baseToken := {| tokenAddr := "0xBA5E" |};
     quoteToken := {| tokenAddr := "0xC0DE" |};
     pool_spotPrice := price;
     pool_spotTick := tick;
     chain_poolIndex := 420;
     proxyPaths_long := 4 |}.

(** Neither the price nor the tick could be read. *)
Definition offline : CrocReposition :=
  new_CrocReposition
    (poolReading (Err RemoteReadFailure) (Err RemoteReadFailure))
    toRange no_opts.

(** The tick was read (250, above the range), the price was not. *)
Definition priceless : CrocReposition :=
  new_CrocReposition (poolReading (Err RemoteReadFailure) (OK 250))
    toRange no_opts.

Definition pricelessToAmbient : CrocReposition :=
  new_CrocReposition (poolReading (Err RemoteReadFailure) (OK 250))
    toAmbient no_opts.

(** A burn range given upper tick first. *)
Definition reversed : CrocReposition :=
  new_CrocReposition (poolAt (1015 # 1000) 150)
    {| target_mint := Ambient; target_burn := (200, 100);
       target_liquidity := 1000000 |}
    no_opts.

(** Tolerances chosen by the caller. *)
Definition aboveImpact (i : Q) : CrocReposition :=
  new_CrocReposition (poolAt (1025 # 1000) 250) toAmbient
    {| opts_impact := Some (round64 i) |}.

(** Spot tick 150, inside the burn range: the price read rejected, and a
    tolerance chosen by the caller. *)
Definition insidePriceless : CrocReposition :=
  new_CrocReposition (poolReading (Err RemoteReadFailure) (OK 150))
    toRange no_opts.

Definition insideImpact (i : Q) : CrocReposition :=
  new_CrocReposition (poolAt (1015 # 1000) 150) toAmbient
    {| opts_impact := Some (round64 i) |}.

(** A pool at the price [price], above the burn range. *)
Definition aboveAt (price i : Q) : CrocReposition :=
  new_CrocReposition (poolAt price 250) toAmbient
    {| opts_impact := Some (round64 i) |}.

(** The spot tick on the bounds of the burn range. *)
Definition atTick (tick : Z) : CrocReposition :=
  new_CrocReposition (poolAt (1015 # 1000) tick) toAmbient no_opts.

End Scenario.

(** * Properties *)

(** ** The rounding of doubles

    [round64] is monotone, hence compatible with the equality of
    rationals, and leaves the doubles it is compared with in place. *)

Lemma pow2_pos (e : Z) : (0 < pow2 e)%Q.
Proof. apply Qpower_0_lt. reflexivity. Qed.

Lemma pow2_add (a b : Z) : (pow2 (a + b) == pow2 a * pow2 b)%Q.
Proof. apply Qpower_plus. discriminate. Qed.

Lemma pow2_Z (n : Z) : 0 <= n -> (pow2 n == inject_Z (2 ^ n))%Q.
Proof. intros Hn. unfold pow2. now rewrite Zpower_Qpower. Qed.

Lemma pow2_le (a b : Z) : a <= b -> (pow2 a <= pow2 b)%Q.
Proof. intros Hab. apply Qpower_le_compat_l; [exact Hab | discriminate]. Qed.

Lemma pow2_lt_inv (a b : Z) : (pow2 a < pow2 b)%Q -> a < b.
Proof. intros Hlt. apply (Qpower_lt_compat_l_inv 2); [exact Hlt | reflexivity]. Qed.

Lemma pow2_sub (a b : Z) : (pow2 (a - b) == pow2 a / pow2 b)%Q.
Proof.
  pose proof (pow2_pos b). pose proof (pow2_add (a - b) b) as Hadd.
  replace (a - b + b) with a in Hadd by lia.
  rewrite Hadd. field. lra.
Qed.

Lemma ilog2_spec (x : Q) :
  (0 < x)%Q -> (pow2 (ilog2 x) <= x < pow2 (ilog2 x + 1))%Q.
Proof.
  intros Hx. destruct x as [n d]. 
  assert (Hn : 0 < n) by (unfold Qlt in Hx; simpl in Hx; lia).
  unfold ilog2. cbn [Qnum Qden].
  set (a := Z.log2 n). set (b := Z.log2 (Z.pos d)).
  destruct (Z.log2_spec n Hn) as [Ha1 Ha2]. fold a in Ha1, Ha2.
  destruct (Z.log2_spec (Z.pos d) ltac:(lia)) as [Hb1 Hb2]. fold b in Hb1, Hb2.
  assert (Ha0 : 0 <= a) by apply Z.log2_nonneg.
  assert (Hb0 : 0 <= b) by apply Z.log2_nonneg.
  assert (Hx' : (n # d == inject_Z n / inject_Z (Z.pos d))%Q) by apply Qmake_Qdiv.
  assert (Hd : (0 < inject_Z (Z.pos d))%Q) by (unfold Qlt; simpl; lia).
  assert (HA1 : (pow2 a <= inject_Z n)%Q) by (rewrite pow2_Z by lia; now rewrite <- Zle_Qle).
  assert (HA2 : (inject_Z n < pow2 (a + 1))%Q) by (rewrite pow2_Z by lia; rewrite <- Zlt_Qlt; now rewrite Z.add_1_r).
  assert (HB1 : (pow2 b <= inject_Z (Z.pos d))%Q) by (rewrite pow2_Z by lia; now rewrite <- Zle_Qle).
  assert (HB2 : (inject_Z (Z.pos d) < pow2 (b + 1))%Q) by (rewrite pow2_Z by lia; rewrite <- Zlt_Qlt; now rewrite Z.add_1_r).
  pose proof (pow2_pos b) as Hpb. pose proof (pow2_pos (a - b)) as Hpk. pose proof (pow2_pos (a - b - 1)) as Hpk'.
  (* upper: x < pow2 (a - b + 1) *)
  assert (Hup : (n # d < pow2 (a - b + 1))%Q).
  { rewrite Hx'. apply Qlt_shift_div_r; [exact Hd |].
    replace (a - b + 1) with ((a + 1) - b) by lia. rewrite pow2_sub.
    apply Qlt_le_trans with (pow2 (a + 1)); [exact HA2 |].
    pose proof (pow2_pos (a + 1)).
    assert (pow2 (a + 1) / pow2 b * pow2 b == pow2 (a + 1))%Q by (field; lra).
    rewrite <- H0 at 1. apply Qmult_le_l; [| exact HB1].
    apply Qlt_shift_div_l; lra. }
  assert (Hlo : (pow2 (a - b - 1) < n # d)%Q).
  { rewrite Hx'. apply Qlt_shift_div_l; [exact Hd |].
    apply Qlt_le_trans with (pow2 a); [| exact HA1].
    replace (a - b - 1) with (a - (b + 1)) by lia. rewrite pow2_sub.
    pose proof (pow2_pos (b + 1)). pose proof (pow2_pos a).
    assert (pow2 a / pow2 (b + 1) * pow2 (b + 1) == pow2 a)%Q by (field; lra).
    rewrite <- H1 at 2. apply Qmult_lt_l; [| exact HB2].
    apply Qlt_shift_div_l; lra. }
  destruct (Qle_bool (pow2 (a - b)) (n # d)) eqn:Hc.
  - apply Qle_bool_iff in Hc. split; assumption.
  - assert (Hnc : ~ (pow2 (a - b) <= n # d)%Q) by (rewrite <- Qle_bool_iff; congruence).
    apply Qnot_le_lt in Hnc.
    replace (a - b - 1 + 1) with (a - b) by lia.
    split; [apply Qlt_le_weak; exact Hlo | exact Hnc].
Qed.

Lemma ilog2_le (x y : Q) : (0 < x)%Q -> (x <= y)%Q -> ilog2 x <= ilog2 y.
Proof.
  intros Hx Hxy.
  destruct (ilog2_spec x Hx) as [Hx1 _].
  destruct (ilog2_spec y ltac:(lra)) as [_ Hy2].
  assert (Hlt : (pow2 (ilog2 x) < pow2 (ilog2 y + 1))%Q) by lra.
  apply pow2_lt_inv in Hlt. lia.
Qed.

Lemma roundHalfEven_range (m : Q) :
  Qfloor m <= roundHalfEven m <= Qfloor m + 1.
Proof.
  unfold roundHalfEven.
  destruct (m - inject_Z (Qfloor m) ?= 1 # 2)%Q; [destruct (Z.even _) | |]; lia.
Qed.

Lemma roundHalfEven_le (m m' : Q) :
  (m <= m')%Q -> roundHalfEven m <= roundHalfEven m'.
Proof.
  intros Hle.
  pose proof (Qfloor_resp_le m m' Hle) as Hf.
  pose proof (roundHalfEven_range m) as Hr.
  pose proof (roundHalfEven_range m') as Hr'.
  destruct (Z.eq_dec (Qfloor m) (Qfloor m')) as [Heq | Hne]; [| lia].
  unfold roundHalfEven in *. rewrite <- Heq in *.
  destruct (m - inject_Z (Qfloor m) ?= 1 # 2)%Q eqn:Hc;
    destruct (m' - inject_Z (Qfloor m) ?= 1 # 2)%Q eqn:Hc';
    try rewrite <- Qeq_alt in *; try rewrite <- Qlt_alt in *;
    try rewrite <- Qgt_alt in *;
    try (destruct (Z.even (Qfloor m))); try lia; try lra.
Qed.

Lemma roundHalfEven_Z (n : Z) : roundHalfEven (inject_Z n) = n.
Proof.
  unfold roundHalfEven. rewrite Qfloor_Z.
  assert (Hc : (inject_Z n - inject_Z n ?= 1 # 2)%Q = Lt).
  { rewrite <- Qlt_alt. lra. }
  now rewrite Hc.
Qed.

Lemma roundHalfEven_eq (m : Q) (n : Z) :
  (m == inject_Z n)%Q -> roundHalfEven m = n.
Proof.
  intros Heq. apply Z.le_antisymm.
  - rewrite <- (roundHalfEven_Z n). apply roundHalfEven_le. lra.
  - rewrite <- (roundHalfEven_Z n) at 1. apply roundHalfEven_le. lra.
Qed.

Lemma roundMagnitude_nonneg (x : Q) : (0 <= x)%Q -> (0 <= roundMagnitude x)%Q.
Proof.
  intros Hx. unfold roundMagnitude.
  pose proof (pow2_pos (quantumExponent x)) as Hp.
  apply Qmult_le_0_compat; [| lra].
  assert (Hz : 0 <= roundHalfEven (x / pow2 (quantumExponent x))).
  { rewrite <- (roundHalfEven_Z 0) at 1. apply roundHalfEven_le.
    apply Qle_shift_div_l; [exact Hp |].
    assert (Hzero : (inject_Z 0 * pow2 (quantumExponent x) == 0)%Q) by ring.
    rewrite Hzero. exact Hx. }
  rewrite Zle_Qle in Hz. exact Hz.
Qed.

Lemma quantumExponent_le (x y : Q) :
  (0 < x)%Q -> (x <= y)%Q -> quantumExponent x <= quantumExponent y.
Proof.
  intros Hx Hxy. unfold quantumExponent.
  pose proof (ilog2_le x y Hx Hxy). lia.
Qed.

Lemma roundMagnitude_le_pos (x y : Q) :
  (0 < x)%Q -> (x <= y)%Q -> (roundMagnitude x <= roundMagnitude y)%Q.
Proof.
  intros Hx Hxy.
  pose proof (quantumExponent_le x y Hx Hxy) as He.
  unfold roundMagnitude.
  set (ex := quantumExponent x) in *. set (ey := quantumExponent y) in *.
  pose proof (pow2_pos ex) as Hpx. pose proof (pow2_pos ey) as Hpy.
  destruct (Z.eq_dec ex ey) as [Heq | Hne].
  - rewrite <- Heq. apply Qmult_le_compat_r; [| lra].
    rewrite <- Zle_Qle. apply roundHalfEven_le.
    apply Qle_shift_div_l; [exact Hpx |].
    assert (x / pow2 ex * pow2 ex == x)%Q by (field; lra). lra.
  - assert (Hlt : ex < ey) by lia.
    set (ky := ilog2 y).
    assert (Hey : ey = ky - 52) by (unfold ey, quantumExponent in *; fold ky in Hlt |- *; unfold ex, quantumExponent in Hlt; lia).
    assert (Hkx : ilog2 x + 1 <= ky) by (unfold ex, quantumExponent in Hlt; lia).
    destruct (ilog2_spec x Hx) as [_ Hx2].
    destruct (ilog2_spec y ltac:(lra)) as [Hy1 _]. fold ky in Hy1.
    assert (Hxk : (x <= pow2 ky)%Q).
    { apply Qle_trans with (pow2 (ilog2 x + 1)); [lra | now apply pow2_le]. }
    apply Qle_trans with (pow2 ky).
    + (* round x <= 2^ky *)
      assert (Hd : 0 <= ky - ex) by lia.
      assert (Hgrid : (pow2 ky == inject_Z (2 ^ (ky - ex)) * pow2 ex)%Q).
      { rewrite <- pow2_Z by lia. rewrite <- pow2_add. now replace (ky - ex + ex) with ky by lia. }
      rewrite Hgrid. apply Qmult_le_compat_r; [| lra].
      rewrite <- Zle_Qle. rewrite <- (roundHalfEven_Z (2 ^ (ky - ex))).
      apply roundHalfEven_le.
      apply Qle_shift_div_r; [exact Hpx |]. now rewrite <- Hgrid.
    + assert (Hgrid : (pow2 ky == inject_Z (2 ^ 52) * pow2 ey)%Q).
      { rewrite <- pow2_Z by lia. rewrite <- pow2_add. now replace (52 + ey) with ky by lia. }
      rewrite Hgrid. apply Qmult_le_compat_r; [| lra].
      rewrite <- Zle_Qle. rewrite <- (roundHalfEven_Z (2 ^ 52)) at 1.
      apply roundHalfEven_le.
      apply Qle_shift_div_l; [exact Hpy |]. now rewrite <- Hgrid.
Qed.

Lemma roundMagnitude_le (x y : Q) :
  (0 <= x)%Q -> (x <= y)%Q -> (roundMagnitude x <= roundMagnitude y)%Q.
Proof.
  intros Hx Hxy.
  destruct (Qlt_le_dec 0 x) as [Hpos | Hzero].
  - now apply roundMagnitude_le_pos.
  - assert (Hx0 : (x == 0)%Q) by lra.
    assert (Hr : (roundMagnitude x == 0)%Q).
    { unfold roundMagnitude.
      rewrite (roundHalfEven_eq _ 0); [ring |].
      generalize (pow2 (quantumExponent x)). intros p.
      rewrite Hx0. unfold Qdiv. ring. }
    rewrite Hr. apply roundMagnitude_nonneg. lra.
Qed.

Lemma round64_le (x y : Q) : (x <= y)%Q -> (round64 x <= round64 y)%Q.
Proof.
  intros Hxy. unfold round64. rewrite !Qred_correct.
  destruct (Qle_bool 0 x) eqn:Hx; destruct (Qle_bool 0 y) eqn:Hy.
  - apply Qle_bool_iff in Hx. now apply roundMagnitude_le.
  - apply Qle_bool_iff in Hx.
    assert (~ (0 <= y)%Q) by (rewrite <- Qle_bool_iff; congruence). lra.
  - apply Qle_bool_iff in Hy.
    assert (Hnx : ~ (0 <= x)%Q) by (rewrite <- Qle_bool_iff; congruence).
    pose proof (roundMagnitude_nonneg (- x) ltac:(lra)).
    pose proof (roundMagnitude_nonneg y Hy). lra.
  - assert (Hnx : ~ (0 <= x)%Q) by (rewrite <- Qle_bool_iff; congruence).
    assert (Hny : ~ (0 <= y)%Q) by (rewrite <- Qle_bool_iff; congruence).
    pose proof (roundMagnitude_le (- y) (- x) ltac:(lra) ltac:(lra)). lra.
Qed.

Lemma round64_eq (x y : Q) : (x == y)%Q -> (round64 x == round64 y)%Q.
Proof.
  intros Heq. apply Qle_antisym; apply round64_le; lra.
Qed.

#[global] Instance round64_proper : Proper (Qeq ==> Qeq) round64.
Proof. intros x y. apply round64_eq. Qed.

Lemma roundHalfEven_error (m : Q) :
  (m - (1 # 2) <= inject_Z (roundHalfEven m) <= m + (1 # 2))%Q.
Proof.
  pose proof (Qfloor_le m) as Hlo. pose proof (Qlt_floor m) as Hhi.
  rewrite inject_Z_plus in Hhi. change (inject_Z 1) with 1%Q in Hhi.
  unfold roundHalfEven.
  destruct (m - inject_Z (Qfloor m) ?= 1 # 2)%Q eqn:Hc;
    [rewrite <- Qeq_alt in Hc | rewrite <- Qlt_alt in Hc | rewrite <- Qgt_alt in Hc].
  - destruct (Z.even (Qfloor m));
      [| rewrite inject_Z_plus; change (inject_Z 1) with 1%Q]; lra.
  - lra.
  - rewrite inject_Z_plus. change (inject_Z 1) with 1%Q. lra.
Qed.

Lemma roundMagnitude_error (x : Q) (K : Z) :
  (0 < x)%Q -> (x < pow2 K)%Q -> -1074 <= K - 53 ->
  (x - pow2 (K - 54) <= roundMagnitude x <= x + pow2 (K - 54))%Q.
Proof.
  intros Hx HK Hmin.
  destruct (ilog2_spec x Hx) as [Hl _].
  assert (Hk : ilog2 x < K) by (apply pow2_lt_inv; lra).
  assert (He : quantumExponent x <= K - 53) by (unfold quantumExponent; lia).
  unfold roundMagnitude.
  set (e := quantumExponent x) in *.
  pose proof (pow2_pos e) as Hpe.
  pose proof (pow2_le e (K - 53) He) as Hle.
  assert (Hdouble : (pow2 (K - 53) == 2 * pow2 (K - 54))%Q).
  { replace (K - 53) with (1 + (K - 54)) by lia. now rewrite pow2_add. }
  pose proof (roundHalfEven_error (x / pow2 e)) as [Hn1 Hn2].
  set (n := inject_Z (roundHalfEven (x / pow2 e))) in *.
  assert (Hx' : (x == x / pow2 e * pow2 e)%Q) by (field; lra).
  assert (H1 : ((x / pow2 e - (1 # 2)) * pow2 e <= n * pow2 e)%Q)
    by (apply Qmult_le_compat_r; lra).
  assert (H2 : (n * pow2 e <= (x / pow2 e + (1 # 2)) * pow2 e)%Q)
    by (apply Qmult_le_compat_r; lra).
  assert (E1 : ((x / pow2 e - (1 # 2)) * pow2 e == x - (1 # 2) * pow2 e)%Q) by (field; lra).
  assert (E2 : ((x / pow2 e + (1 # 2)) * pow2 e == x + (1 # 2) * pow2 e)%Q) by (field; lra).
  lra.
Qed.

Lemma round64_error (x : Q) (K : Z) :
  (0 <= x)%Q -> (x < pow2 K)%Q -> -1074 <= K - 53 ->
  (x - pow2 (K - 54) <= round64 x <= x + pow2 (K - 54))%Q.
Proof.
  intros Hx HK Hmin. pose proof (pow2_pos (K - 54)) as Hp.
  destruct (Qlt_le_dec 0 x) as [Hpos | Hzero].
  - unfold round64. rewrite Qred_correct.
    assert (Hb : Qle_bool 0 x = true) by (apply Qle_bool_iff; lra).
    rewrite Hb. now apply roundMagnitude_error.
  - assert (Hx0 : (x == 0)%Q) by lra.
    rewrite (round64_eq x 0 Hx0).
    assert (Hr : round64 0 = 0%Q) by (vm_compute; reflexivity).
    rewrite Hr. lra.
Qed.

(** The doubles the planner compares against are fixed by the rounding. *)
Lemma round64_constants :
  round64 0 = 0%Q /\ round64 (1 # 2) = (1 # 2)%Q /\ round64 1 = 1%Q /\
  round64 5000 = 5000%Q /\ round64 10000 = 10000%Q.
Proof. repeat split; vm_compute; reflexivity. Qed.

Lemma round64_nonneg (x : Q) : (0 <= x)%Q -> (0 <= round64 x)%Q.
Proof.
  intros Hx. pose proof (round64_le 0 x Hx) as Hle.
  now rewrite (proj1 round64_constants) in Hle.
Qed.

Lemma round64_le_1 (x : Q) : (x <= 1)%Q -> (round64 x <= 1)%Q.
Proof.
  intros Hx. pose proof (round64_le x 1 Hx) as Hle.
  now rewrite (proj1 (proj2 (proj2 round64_constants))) in Hle.
Qed.

Lemma round64_ge_1 (x : Q) : (1 <= x)%Q -> (1 <= round64 x)%Q.
Proof.
  intros Hx. pose proof (round64_le 1 x Hx) as Hle.
  now rewrite (proj1 (proj2 (proj2 round64_constants))) in Hle.
Qed.

(** ** Tick-to-price conversion *)

Section TickToPrice.

Variable tickBase : Q.
Hypothesis tickBase_gt_1 : (1 < tickBase)%Q.

Lemma tickToPrice_positive (tick : Z) :
  (0 < TickMath.tickToPrice tickBase tick)%Q.
Proof.
  unfold TickMath.tickToPrice. apply Qpower_0_lt.
  apply Qlt_trans with 1%Q; [reflexivity | exact tickBase_gt_1].
Qed.

Lemma tickToPrice_next (tick : Z) :
  (TickMath.tickToPrice tickBase (tick + 1)
   == TickMath.tickToPrice tickBase tick * tickBase)%Q.
Proof.
  unfold TickMath.tickToPrice. rewrite Qpower_plus.
  - now rewrite Qpower_1_r.
  - intros Heq. rewrite Heq in tickBase_gt_1. discriminate tickBase_gt_1.
Qed.

Lemma tickToPrice_next_lt (tick : Z) :
  (TickMath.tickToPrice tickBase tick
   < TickMath.tickToPrice tickBase (tick + 1))%Q.
Proof.
  rewrite tickToPrice_next.
  rewrite <- (Qmult_1_r (TickMath.tickToPrice tickBase tick)) at 1.
  apply Qmult_lt_l; [apply tickToPrice_positive | exact tickBase_gt_1].
Qed.

(** C8. On a logarithmic tick scale whose step exceeds 1, the conversion
    from ticks to prices is strictly increasing: [t1 < t2] implies
    [tickToPrice t1 < tickToPrice t2], for all integer ticks. *)
Theorem tickToPrice_strictly_increasing (t1 t2 : Z) :
  t1 < t2 ->
  (TickMath.tickToPrice tickBase t1 < TickMath.tickToPrice tickBase t2)%Q.
Proof.
  intros Hlt.
  replace t2 with (t1 + 1 + Z.of_nat (Z.to_nat (t2 - t1 - 1))) by lia.
  induction (Z.to_nat (t2 - t1 - 1)) as [|n IH].
  - rewrite Z.add_0_r. apply tickToPrice_next_lt.
  - eapply Qlt_trans; [exact IH |].
    replace (t1 + 1 + Z.of_nat (S n)) with (t1 + 1 + Z.of_nat n + 1) by lia.
    apply tickToPrice_next_lt.
Qed.

End TickToPrice.

Lemma tickToPrice_strictly_increasing_witness :
  (TickMath.tickToPrice (10001 # 10000) (-3)
   < TickMath.tickToPrice (10001 # 10000) 2)%Q.
Proof.
  apply (tickToPrice_strictly_increasing (10001 # 10000)).
  - reflexivity.
  - lia.
Defined.

(** ** The constructor *)

Lemma truthy_false_iff (x : Q) : truthy x = false <-> (x == 0)%Q.
Proof.
  unfold truthy. rewrite Bool.negb_false_iff. apply Qeq_bool_iff.
Qed.

Lemma impact_or_default_nonzero (opts : CrocRepositionOpts) :
  ~ (impact_or_default opts == 0)%Q.
Proof.
  unfold impact_or_default.
  assert (Hdefault : ~ (DEFAULT_REBAL_SLIPPAGE == 0)%Q)
    by (vm_compute; discriminate).
  destruct (opts_impact opts) as [i|]; [| exact Hdefault].
  destruct (truthy i) eqn:Ht; [| exact Hdefault].
  intros Hz. apply truthy_false_iff in Hz. congruence.
Qed.

(** C9. A planner constructed with [impact] equal to 0 in its options has
    the default tolerance 0.02 (the double that literal denotes) and is the
    very planner constructed without an impact option; no options at all
    make the constructor produce a planner whose tolerance is zero. *)
Theorem zero_impact_falls_back_to_default
    (pl : CrocPoolView) (target : RepositionTarget) :
  impact (new_CrocReposition pl target {| opts_impact := Some 0%Q |})
    = DEFAULT_REBAL_SLIPPAGE /\
  DEFAULT_REBAL_SLIPPAGE = round64 (2 # 100) /\
  new_CrocReposition pl target {| opts_impact := Some 0%Q |}
    = new_CrocReposition pl target no_opts /\
  (forall opts, ~ (impact (new_CrocReposition pl target opts) == 0)%Q).
Proof.
  repeat split. intros opts. apply impact_or_default_nonzero.
Qed.

(** ** The direction test *)

Section Direction.

Variable this : CrocReposition.
Variable tick : Z.
Hypothesis spot_read : spotTick this = OK tick.

Lemma isBaseOutOfRange_above :
  aboveRange (burnRange this) tick -> isBaseOutOfRange this = OK true.
Proof.
  unfold aboveRange, isBaseOutOfRange. intros Ha. rewrite spot_read. simpl.
  destruct (Z.leb_spec (snd (burnRange this)) tick); [reflexivity | lia].
Qed.

Lemma isBaseOutOfRange_inside :
  insideRange (burnRange this) tick ->
  isBaseOutOfRange this = Err PositionNotOutOfRange.
Proof.
  unfold insideRange, isBaseOutOfRange. intros [Hl Hu]. rewrite spot_read. simpl.
  destruct (Z.leb_spec (snd (burnRange this)) tick); [lia |].
  destruct (Z.ltb_spec tick (fst (burnRange this))); [lia | reflexivity].
Qed.

Lemma isBaseOutOfRange_below :
  validRange (burnRange this) ->
  belowRange (burnRange this) tick -> isBaseOutOfRange this = OK false.
Proof.
  unfold validRange, belowRange, isBaseOutOfRange. intros Hv Hb.
  rewrite spot_read. simpl.
  destruct (Z.leb_spec (snd (burnRange this)) tick); [lia |].
  destruct (Z.ltb_spec tick (fst (burnRange this))); [reflexivity | lia].
Qed.

Lemma isBaseOutOfRange_returns :
  outOfRange (burnRange this) tick ->
  exists base, isBaseOutOfRange this = OK base /\
    (base = true <-> aboveRange (burnRange this) tick).
Proof.
  unfold outOfRange, aboveRange, belowRange, isBaseOutOfRange. intros Ho.
  rewrite spot_read. simpl.
  destruct (Z.leb_spec (snd (burnRange this)) tick).
  - exists true. tauto.
  - destruct (Z.ltb_spec tick (fst (burnRange this))); [| lia].
    exists false. split; [reflexivity |]. split; [discriminate | lia].
Qed.

End Direction.

(** C4. For a planner whose burn range is a tick range (lower tick below
    upper tick) and whose spot tick was read, the direction test returns
    true when the spot tick is at or above the upper tick, returns false
    when it is below the lower tick, and raises the not-out-of-range error
    when it is inside; exactly one of the three cases applies. *)
Theorem isBaseOutOfRange_three_cases (this : CrocReposition) (tick : Z) :
  spotTick this = OK tick ->
  validRange (burnRange this) ->
  (aboveRange (burnRange this) tick -> isBaseOutOfRange this = OK true) /\
  (belowRange (burnRange this) tick -> isBaseOutOfRange this = OK false) /\
  (insideRange (burnRange this) tick ->
     isBaseOutOfRange this = Err PositionNotOutOfRange) /\
  (aboveRange (burnRange this) tick \/ belowRange (burnRange this) tick \/
     insideRange (burnRange this) tick) /\
  ~ (aboveRange (burnRange this) tick /\ belowRange (burnRange this) tick) /\
  ~ (aboveRange (burnRange this) tick /\ insideRange (burnRange this) tick) /\
  ~ (belowRange (burnRange this) tick /\ insideRange (burnRange this) tick).
Proof.
  intros Hread Hvalid.
  split; [apply isBaseOutOfRange_above; assumption |].
  split; [apply isBaseOutOfRange_below; assumption |].
  split; [apply isBaseOutOfRange_inside; assumption |].
  unfold validRange, aboveRange, belowRange, insideRange in *. lia.
Qed.

Lemma isBaseOutOfRange_three_cases_witness :
  spotTick Scenario.above = OK 250 /\
  validRange (burnRange Scenario.above) /\
  isBaseOutOfRange Scenario.above = OK true.
Proof.
  assert (Hread : spotTick Scenario.above = OK 250) by reflexivity.
  assert (Hvalid : validRange (burnRange Scenario.above))
    by (unfold validRange; simpl; lia).
  split; [exact Hread |]. split; [exact Hvalid |].
  apply (proj1 (isBaseOutOfRange_three_cases Scenario.above 250 Hread Hvalid)).
  unfold aboveRange. simpl. lia.
Defined.

(** ** The balance target fraction *)

Lemma balancePercent_of_ambient `{Collaborators} (this : CrocReposition) :
  mintRange this = Ambient -> balancePercent this = OK (1 # 2)%Q.
Proof.
  intros Hmint. unfold balancePercent. now rewrite Hmint.
Qed.

(** C6. With the ambient mint target, [balancePercent] returns exactly
    0.5, whatever the spot price, the spot tick and the liquidity are. *)
Theorem balancePercent_ambient `{Collaborators} (this : CrocReposition) :
  mintRange this = Ambient -> balancePercent this = OK (1 # 2)%Q.
Proof.
  intros Hmint. destruct this as [pl burn mint liq price tick tolerance].
  simpl in Hmint. subst mint. reflexivity.
Qed.

Lemma balancePercent_ambient_witness :
  balancePercent Scenario.above = OK (1 # 2)%Q.
Proof.
  apply (balancePercent_ambient Scenario.above). reflexivity.
Defined.

(** ** The swap fraction *)

Lemma BigNumber_from_safe (value : Z) :
  - MAX_SAFE < value < MAX_SAFE -> BigNumber_from value = OK value.
Proof.
  intros [Hlo Hhi]. unfold BigNumber_from.
  destruct (Z.leb_spec MAX_SAFE value); [lia |].
  destruct (Z.leb_spec value (- MAX_SAFE)); [lia | reflexivity].
Qed.

Lemma scaledFraction_le (sum : Q) : scaledFraction sum <= 10000.
Proof.
  unfold scaledFraction, fmul.
  apply Z.le_trans with (Qfloor (round64 10000)); [| now vm_compute].
  apply Qfloor_resp_le, round64_le.
  pose proof (Q.le_min_r (round64 sum) 1). lra.
Qed.

Lemma scaledFraction_nonneg (sum : Q) :
  (0 <= sum)%Q -> 0 <= scaledFraction sum.
Proof.
  intros Hnn. unfold scaledFraction, fmul.
  apply Z.le_trans with (Qfloor 0); [now vm_compute |].
  apply Qfloor_resp_le, round64_nonneg.
  pose proof (round64_nonneg sum Hnn).
  assert (0 <= Qmin (round64 sum) 1)%Q by (apply Q.min_glb; lra). lra.
Qed.

Lemma scaledFraction_full (sum : Q) :
  (1 <= sum)%Q -> scaledFraction sum = 10000.
Proof.
  intros Hge. unfold scaledFraction, fmul.
  rewrite (Q.min_r (round64 sum) 1 (round64_ge_1 sum Hge)).
  reflexivity.
Qed.

Lemma scaledFraction_saturated (sum : Q) :
  (1 <= round64 sum)%Q -> scaledFraction sum = 10000.
Proof.
  intros Hge. unfold scaledFraction, fmul.
  rewrite (Q.min_r (round64 sum) 1 Hge). reflexivity.
Qed.

(** The two roundings move the scaled fraction by less than a millionth
    of a unit. *)
Lemma scaledFraction_accurate (sum : Q) :
  (0 <= sum)%Q ->
  (inject_Z (scaledFraction sum) - (1 # 1000000) < Qmin sum 1 * 10000
   < inject_Z (scaledFraction sum) + 1 + (1 # 1000000))%Q.
Proof.
  intros Hnn.
  destruct (Qlt_le_dec sum 1) as [Hlt | Hge].
  - assert (Hmin : (Qmin sum 1 == sum)%Q) by (apply Q.min_l; lra).
    rewrite Hmin.
    pose proof (round64_error sum 0 Hnn Hlt ltac:(lia)) as [Hr1 Hr2].
    pose proof (round64_nonneg sum Hnn) as Hr0.
    pose proof (round64_le_1 sum ltac:(lra)) as Hr3.
    unfold scaledFraction, fmul.
    rewrite (Q.min_l (round64 sum) 1 Hr3).
    set (r := round64 sum) in *.
    assert (Hp14 : (pow2 14 == 16384)%Q) by reflexivity.
    pose proof (round64_error (r * 10000) 14 ltac:(lra) ltac:(lra) ltac:(lia))
      as [Hv1 Hv2].
    set (v := round64 (r * 10000)) in *.
    pose proof (Qfloor_le v) as Hf1. pose proof (Qlt_floor v) as Hf2.
    rewrite inject_Z_plus in Hf2. change (inject_Z 1) with 1%Q in Hf2.
    assert (Hp54 : (pow2 (0 - 54) == 1 # 18014398509481984)%Q) by reflexivity.
    assert (Hp40 : (pow2 (14 - 54) == 1 # 1099511627776)%Q) by reflexivity.
    lra.
  - rewrite (scaledFraction_full sum Hge).
    assert (Hmin : (Qmin sum 1 == 1)%Q) by (apply Q.min_r; lra).
    rewrite Hmin. split; reflexivity.
Qed.

Section Fractions.

Context `{Collaborators}.

Variable this : CrocReposition.
Variables (price : Q) (tick : Z).
Hypothesis snapshot : spotState this price tick.
Hypothesis exited : outOfRange (burnRange this) tick.

Lemma balancePercent_is_fraction :
  depositBalanceIsFraction this ->
  exists bal, balancePercent this = OK bal /\ (0 <= bal <= 1)%Q.
Proof.
  destruct snapshot as [Hprice Htick].
  unfold depositBalanceIsFraction, balancePercent.
  destruct (mintRange this) as [|range].
  - intros _. exists (1 # 2)%Q. split; [reflexivity | lra].
  - rewrite Hprice. simpl. intros Hfrac.
    destruct (isBaseOutOfRange_returns this tick Htick exited) as (base & -> & _).
    simpl. eexists. split; [reflexivity |].
    destruct base; [| lra]. unfold fsub.
    split; [apply round64_nonneg | apply round64_le_1]; lra.
Qed.

Lemma swapFraction_of_balance (bal : Q) :
  balancePercent this = OK bal ->
  (0 <= bal + impact this)%Q ->
  swapFraction this = OK (scaledFraction (bal + impact this)).
Proof.
  intros Hbal Hnn. unfold swapFraction. rewrite Hbal. unfold bind, fadd.
  fold (scaledFraction (bal + impact this)).
  apply BigNumber_from_safe.
  pose proof (scaledFraction_le (bal + impact this)).
  pose proof (scaledFraction_nonneg _ Hnn).
  unfold MAX_SAFE. lia.
Qed.

Lemma currentCollateral_returns :
  exists collat, currentCollateral this = OK collat /\
    (collateralIsAbsolute this -> 0 <= collat).
Proof.
  destruct snapshot as [Hprice Htick].
  destruct (isBaseOutOfRange_returns this tick Htick exited) as (base & Hbase & _).
  unfold currentCollateral. rewrite Hbase, Hprice. simpl.
  eexists. split; [reflexivity |].
  intros Habs. destruct (Habs price Hprice). destruct base; assumption.
Qed.

End Fractions.

(** C3, as amended.  For a position that has left its range, a balance
    fraction in [0, 1] and a tolerance that is not negative, the swap
    fraction is an integer between 0 and 10000: the floor of
    [min(balancePercent + impact, 1) * 10000] as the doubles compute it,
    which is less than a millionth of a unit away from the exact value of
    that expression, and exactly 10000 as soon as
    [balancePercent + impact >= 1], the sum taken exactly or in doubles. *)
Theorem swapFraction_within_scale `{Collaborators}
    (this : CrocReposition) (price : Q) (tick : Z) :
  spotState this price tick ->
  outOfRange (burnRange this) tick ->
  depositBalanceIsFraction this ->
  (0 <= impact this)%Q ->
  exists bal fraction,
    balancePercent this = OK bal /\
    swapFraction this = OK fraction /\
    0 <= fraction <= 10000 /\
    fraction = Qfloor (fmul (Qmin (fadd bal (impact this)) 1) 10000) /\
    (inject_Z fraction - (1 # 1000000) < Qmin (bal + impact this) 1 * 10000
       < inject_Z fraction + 1 + (1 # 1000000))%Q /\
    ((1 <= bal + impact this)%Q -> fraction = 10000) /\
    ((1 <= fadd bal (impact this))%Q -> fraction = 10000).
Proof.
  intros Hsnap Hout Hfrac Himpact.
  destruct (balancePercent_is_fraction this price tick Hsnap Hout Hfrac)
    as (bal & Hbal & Hb0 & Hb1).
  assert (Hnn : (0 <= bal + impact this)%Q) by lra.
  exists bal, (scaledFraction (bal + impact this)).
  split; [exact Hbal |].
  split; [apply swapFraction_of_balance; assumption |].
  split; [split; [apply scaledFraction_nonneg; exact Hnn | apply scaledFraction_le] |].
  split; [reflexivity |].
  split; [apply scaledFraction_accurate; exact Hnn |].
  split; [apply scaledFraction_full | apply scaledFraction_saturated].
Qed.

Lemma swapFraction_within_scale_witness :
  exists fraction,
    swapFraction Scenario.aboveToRange = OK fraction /\
    0 <= fraction <= 10000.
Proof.
  destruct (swapFraction_within_scale Scenario.aboveToRange (round64 (1025 # 1000)) 250)
    as (bal & fraction & _ & Hfraction & Hrange & _).
  - split; reflexivity.
  - left. unfold aboveRange. simpl. lia.
  - vm_compute. split; discriminate.
  - vm_compute. discriminate.
  - exists fraction. split; assumption.
Defined.

(** The roundings are those of the source: with the ambient target and
    the tolerance 0.0005, 0.5 + 0.0005 times 10000 is 5004.999999999999 in
    doubles and the swap fraction is 5004, where the exact product is
    5005. *)
Lemma swapFraction_rounds_as_doubles :
  swapFraction (Scenario.aboveAt 1 (5 # 10000)) = OK 5004 /\
  Qfloor (Qmin ((1 # 2) + (5 # 10000)) 1 * 10000) = 5005.
Proof. split; vm_compute; reflexivity. Qed.

(** C3, as stated, fails: above the range, with the ambient target, a
    caller's tolerance of -1 gives the swap fraction -5000 (0.5 - 1 and
    -0.5 * 10000 are exact in doubles). *)
Lemma swapFraction_negative_tolerance :
  spotState Scenario.aboveNegativeImpact (round64 (1025 # 1000)) 250 /\
  outOfRange (burnRange Scenario.aboveNegativeImpact) 250 /\
  impact Scenario.aboveNegativeImpact = (-1)%Q /\
  swapFraction Scenario.aboveNegativeImpact = OK (-5000) /\
  ~ (0 <= -5000 <= 10000).
Proof.
  split; [split; reflexivity |].
  split; [left; unfold aboveRange; simpl; lia |].
  split; [reflexivity |].
  split; [vm_compute; reflexivity | lia].
Qed.

(** ** Collateral *)

Lemma quot_scale_le (collat fraction : Z) :
  0 <= collat -> fraction <= 10000 ->
  BigNumber_div (collat * fraction) 10000 <= collat.
Proof.
  intros Hc Hf. unfold BigNumber_div.
  destruct (Z.le_gt_cases 0 fraction) as [Hpos | Hneg].
  - rewrite Z.quot_div_nonneg by nia.
    apply Z.div_le_upper_bound; nia.
  - assert (collat * fraction ÷ 10000 <= 0); [| lia].
    rewrite <- (Z.opp_involutive (collat * fraction)).
    rewrite Z.quot_opp_l by lia.
    assert (0 <= (- (collat * fraction)) ÷ 10000); [| lia].
    apply Z.quot_pos; nia.
Qed.

Section Collateral.

Context `{Collaborators}.

Variable this : CrocReposition.
Variables (price : Q) (tick : Z).
Hypothesis snapshot : spotState this price tick.
Hypothesis exited : outOfRange (burnRange this) tick.
Hypothesis fraction_ok : depositBalanceIsFraction this.
Hypothesis tolerance_ok : (0 <= impact this <= 1)%Q.

Lemma collateral_split :
  exists collat fraction,
    currentCollateral this = OK collat /\
    swapFraction this = OK fraction /\
    0 <= fraction <= 10000 /\
    convertCollateral this = OK (BigNumber_div (collat * fraction) 10000) /\
    mintInput_collat this
      = OK (collat - BigNumber_div (collat * fraction) 10000) /\
    (collateralIsAbsolute this -> 0 <= collat).
Proof.
  destruct (currentCollateral_returns this price tick snapshot exited)
    as (collat & Hcollat & Habs).
  destruct (balancePercent_is_fraction this price tick snapshot exited fraction_ok)
    as (bal & Hbal & Hb0 & Hb1).
  assert (Hnn : (0 <= bal + impact this)%Q) by lra.
  pose proof (swapFraction_of_balance this bal Hbal Hnn) as Hfraction.
  exists collat, (scaledFraction (bal + impact this)).
  split; [exact Hcollat |]. split; [exact Hfraction |].
  split; [split; [apply scaledFraction_nonneg; exact Hnn | apply scaledFraction_le] |].
  assert (Hconv : convertCollateral this
      = OK (BigNumber_div (collat * scaledFraction (bal + impact this)) 10000)).
  { unfold convertCollateral. rewrite Hfraction, Hcollat. reflexivity. }
  split; [exact Hconv |]. split; [| exact Habs].
  unfold mintInput_collat. rewrite Hcollat, Hconv. reflexivity.
Qed.

End Collateral.

(** C2. For a position that has left its range, a balance fraction in
    [0, 1] and a tolerance in [0, 1], the three amounts are returned and,
    in smallest units, [convertCollateral] plus the remainder [mintInput]
    displays is exactly [currentCollateral], with [convertCollateral]
    equal to [currentCollateral * swapFraction / 10000] in integer
    division. *)
Theorem convert_plus_mintInput_is_collateral `{Collaborators}
    (this : CrocReposition) (price : Q) (tick : Z) :
  spotState this price tick ->
  outOfRange (burnRange this) tick ->
  depositBalanceIsFraction this ->
  (0 <= impact this <= 1)%Q ->
  exists collat fraction converted remainder,
    currentCollateral this = OK collat /\
    swapFraction this = OK fraction /\
    convertCollateral this = OK converted /\
    mintInput_collat this = OK remainder /\
    converted = Z.quot (collat * fraction) 10000 /\
    converted + remainder = collat.
Proof.
  intros Hsnap Hout Hfrac Htol.
  destruct (collateral_split this price tick Hsnap Hout Hfrac Htol)
    as (collat & fraction & Hc & Hf & _ & Hconv & Hrem & _).
  exists collat, fraction, (BigNumber_div (collat * fraction) 10000),
    (collat - BigNumber_div (collat * fraction) 10000).
  repeat (split; [assumption || reflexivity |]). lia.
Qed.

Lemma convert_plus_mintInput_is_collateral_witness :
  exists converted remainder,
    convertCollateral Scenario.above = OK converted /\
    mintInput_collat Scenario.above = OK remainder /\
    currentCollateral Scenario.above = OK (converted + remainder).
Proof.
  destruct (convert_plus_mintInput_is_collateral Scenario.above (round64 (1025 # 1000)) 250)
    as (collat & fraction & converted & remainder & Hc & _ & Hconv & Hrem & _ & Hsum).
  - split; reflexivity.
  - left. unfold aboveRange. simpl. lia.
  - exact I.
  - vm_compute. split; discriminate.
  - exists converted, remainder. rewrite Hsum. auto.
Defined.

(** C10. For a position that has left its range, a balance fraction in
    [0, 1], a tolerance in [0, 1] and liquidity helpers that return
    absolute quantities, [convertCollateral] is at most
    [currentCollateral], the swap fraction being at most 10000, and the
    remainder computed by [mintInput] is not negative. *)
Theorem convertCollateral_at_most_collateral `{Collaborators}
    (this : CrocReposition) (price : Q) (tick : Z) :
  spotState this price tick ->
  outOfRange (burnRange this) tick ->
  depositBalanceIsFraction this ->
  collateralIsAbsolute this ->
  (0 <= impact this <= 1)%Q ->
  exists collat fraction converted remainder,
    currentCollateral this = OK collat /\
    swapFraction this = OK fraction /\
    convertCollateral this = OK converted /\
    mintInput_collat this = OK remainder /\
    fraction <= 10000 /\
    converted <= collat /\
    0 <= remainder.
Proof.
  intros Hsnap Hout Hfrac Habs Htol.
  destruct (collateral_split this price tick Hsnap Hout Hfrac Htol)
    as (collat & fraction & Hc & Hf & [_ Hle] & Hconv & Hrem & Hnn).
  pose proof (quot_scale_le collat fraction (Hnn Habs) Hle).
  exists collat, fraction, (BigNumber_div (collat * fraction) 10000),
    (collat - BigNumber_div (collat * fraction) 10000).
  repeat (split; [assumption |]). lia.
Qed.

Lemma convertCollateral_at_most_collateral_witness :
  exists converted remainder,
    convertCollateral Scenario.below = OK converted /\
    mintInput_collat Scenario.below = OK remainder /\
    0 <= remainder.
Proof.
  destruct (convertCollateral_at_most_collateral Scenario.below (round64 (1005 # 1000)) 50)
    as (collat & fraction & converted & remainder & _ & _ & Hconv & Hrem & _ & _ & Hnn).
  - split; reflexivity.
  - right. unfold belowRange. simpl. lia.
  - exact I.
  - intros p _. split; apply Z.le_max_l.
  - vm_compute. split; discriminate.
  - exists converted, remainder. auto.
Defined.

(** ** A position still in range *)

Section InRange.

Context `{Collaborators}.

Variable this : CrocReposition.
Variable tick : Z.
Hypothesis tick_read : spotTick this = OK tick.
Hypothesis still_inside : insideRange (burnRange this) tick.

Lemma direction_rejected :
  isBaseOutOfRange this = Err PositionNotOutOfRange.
Proof. now apply isBaseOutOfRange_inside with tick. Qed.

Lemma currentCollateral_rejected :
  currentCollateral this = Err PositionNotOutOfRange.
Proof. unfold currentCollateral. now rewrite direction_rejected. Qed.

Lemma pivotTokens_rejected :
  pivotTokens this = Err PositionNotOutOfRange.
Proof. unfold pivotTokens. now rewrite direction_rejected. Qed.

Lemma formatDirective_rejected :
  formatDirective this = Err PositionNotOutOfRange.
Proof. unfold formatDirective. now rewrite pivotTokens_rejected. Qed.

(** With a concrete mint range the price is awaited before the range
    check: the outcome of its read decides the error. *)
Lemma balancePercent_rejected :
  mintRange this <> Ambient ->
  (forall price, spotPrice this = OK price ->
     balancePercent this = Err PositionNotOutOfRange) /\
  (forall e, spotPrice this = Err e -> balancePercent this = Err e).
Proof.
  intros Hmint. unfold balancePercent.
  destruct (mintRange this) as [|range]; [congruence |].
  split; [intros price -> | intros e ->]; [| reflexivity].
  unfold bind. now rewrite direction_rejected.
Qed.

Lemma convertCollateral_after_fraction :
  failed (convertCollateral this) /\
  (forall fraction, swapFraction this = OK fraction ->
     convertCollateral this = Err PositionNotOutOfRange) /\
  (forall e, swapFraction this = Err e -> convertCollateral this = Err e).
Proof.
  unfold convertCollateral.
  split; [| split].
  - destruct (swapFraction this); unfold bind.
    + rewrite currentCollateral_rejected. now eexists.
    + now eexists.
  - intros fraction ->. unfold bind. now rewrite currentCollateral_rejected.
  - now intros e ->.
Qed.

Lemma swapFraction_of_ambient :
  mintRange this = Ambient ->
  ((0 <= impact this)%Q -> exists fraction, swapFraction this = OK fraction) /\
  ((exists fraction, swapFraction this = OK fraction) \/
   swapFraction this = Err NumericFault).
Proof.
  intros Hmint.
  pose proof (balancePercent_of_ambient this Hmint) as Hbal.
  split.
  - intros Hnn. eexists.
    apply (swapFraction_of_balance this (1 # 2) Hbal). lra.
  - unfold swapFraction. rewrite Hbal. unfold bind, BigNumber_from.
    destruct (_ || _); [now right | left; now eexists].
Qed.

End InRange.

(** C1, as amended.  For every planner whose burn range contains the spot
    tick, [currentCollateral], [mintInput], [swapOutput], [postBalance],
    the building of the directive, [rebal] and [simStatic] fail with the
    not-out-of-range error, whether the mint target is ambient or a
    concrete range.  [balancePercent] returns 0.5 for the ambient target;
    for a concrete range it fails, with the not-out-of-range error when the
    spot price was read and with the error of the price read when that
    read was rejected.  [convertCollateral] always fails: with the
    not-out-of-range error whenever its swap fraction is computed (for the
    ambient target with a tolerance that is not negative, and for a
    concrete range whose spot price was read), with the error of the price
    read for a concrete range whose price read was rejected, and with
    that error or the numeric fault of the conversion to [BigNumber] for
    the ambient target otherwise. *)
Theorem in_range_methods_fail `{Collaborators}
    (this : CrocReposition) (tick : Z) :
  spotTick this = OK tick ->
  insideRange (burnRange this) tick ->
  currentCollateral this = Err PositionNotOutOfRange /\
  mintInput this = Err PositionNotOutOfRange /\
  swapOutput this = Err PositionNotOutOfRange /\
  postBalance this = Err PositionNotOutOfRange /\
  formatDirective this = Err PositionNotOutOfRange /\
  rebal this = Err PositionNotOutOfRange /\
  simStatic this = Err PositionNotOutOfRange /\
  (mintRange this = Ambient -> balancePercent this = OK (1 # 2)%Q) /\
  (forall price,
     mintRange this <> Ambient -> spotPrice this = OK price ->
     balancePercent this = Err PositionNotOutOfRange /\
     convertCollateral this = Err PositionNotOutOfRange) /\
  (forall e,
     mintRange this <> Ambient -> spotPrice this = Err e ->
     balancePercent this = Err e /\ convertCollateral this = Err e) /\
  failed (convertCollateral this) /\
  (forall fraction,
     swapFraction this = OK fraction ->
     convertCollateral this = Err PositionNotOutOfRange) /\
  (mintRange this = Ambient -> (0 <= impact this)%Q ->
     convertCollateral this = Err PositionNotOutOfRange) /\
  (mintRange this = Ambient ->
     convertCollateral this = Err PositionNotOutOfRange \/
     convertCollateral this = Err NumericFault).
Proof.
  intros Htick Hin.
  pose proof (direction_rejected this tick Htick Hin) as Hdir.
  pose proof (currentCollateral_rejected this tick Htick Hin) as Hcur.
  pose proof (pivotTokens_rejected this tick Htick Hin) as Hpivot.
  pose proof (formatDirective_rejected this tick Htick Hin) as Hfmt.
  destruct (convertCollateral_after_fraction this tick Htick Hin)
    as (Hfails & Hafter & Hbefore).
  split; [exact Hcur |].
  split; [unfold mintInput, mintInput_collat; now rewrite Hcur |].
  split; [unfold swapOutput; now rewrite Hpivot |].
  split; [unfold postBalance; now rewrite Hdir |].
  split; [exact Hfmt |].
  split; [unfold rebal; now rewrite Hfmt |].
  split; [unfold simStatic; now rewrite Hfmt |].
  split; [apply balancePercent_of_ambient |].
  split.
  { intros price Hmint Hprice.
    destruct (balancePercent_rejected this tick Htick Hin Hmint) as [Hbal _].
    split; [now apply Hbal with price |].
    apply Hbefore. unfold swapFraction. now rewrite (Hbal price Hprice). }
  split.
  { intros e Hmint Hprice.
    destruct (balancePercent_rejected this tick Htick Hin Hmint) as [_ Hbal].
    split; [now apply Hbal |].
    apply Hbefore. unfold swapFraction. now rewrite (Hbal e Hprice). }
  split; [exact Hfails |].
  split; [exact Hafter |].
  split.
  { intros Hmint Hnn.
    destruct (proj1 (swapFraction_of_ambient this Hmint) Hnn) as [fraction Hf].
    now apply Hafter with fraction. }
  intros Hmint.
  destruct (proj2 (swapFraction_of_ambient this Hmint)) as [[fraction Hf] | Hf].
  - left. now apply Hafter with fraction.
  - right. now apply Hbefore.
Qed.

Lemma in_range_methods_fail_witness :
  postBalance Scenario.insideToRange = Err PositionNotOutOfRange /\
  balancePercent Scenario.insideToRange = Err PositionNotOutOfRange.
Proof.
  destruct (in_range_methods_fail Scenario.insideToRange 150)
    as (_ & _ & _ & Hpost & _ & _ & _ & _ & Hrange & _).
  - reflexivity.
  - unfold insideRange. simpl. lia.
  - split; [exact Hpost |].
    apply (Hrange (round64 (1015 # 1000))); [discriminate | reflexivity].
Defined.

(** C1, as stated, fails, with the spot tick 150 inside the burn range
    [100, 200]: for the ambient mint target [balancePercent] returns 0.5
    instead of failing; for a concrete mint range and a rejected price read
    it fails with the error of that read; and for the ambient target with
    the tolerance -10^13 [convertCollateral] fails with the numeric fault
    of the conversion to [BigNumber] (0.5 - 10^13 is exact in doubles, its
    product by 10000 rounds to -10^17, which is not a safe integer). *)
Lemma balancePercent_returns_in_range :
  (spotTick Scenario.inside = OK 150 /\
   insideRange (burnRange Scenario.inside) 150 /\
   mintRange Scenario.inside = Ambient /\
   balancePercent Scenario.inside = OK (1 # 2)%Q /\
   balancePercent Scenario.inside <> Err PositionNotOutOfRange) /\
  (spotTick Scenario.insidePriceless = OK 150 /\
   insideRange (burnRange Scenario.insidePriceless) 150 /\
   balancePercent Scenario.insidePriceless = Err RemoteReadFailure /\
   balancePercent Scenario.insidePriceless <> Err PositionNotOutOfRange) /\
  (spotTick (Scenario.insideImpact (-10000000000000)) = OK 150 /\
   insideRange (burnRange (Scenario.insideImpact (-10000000000000))) 150 /\
   convertCollateral (Scenario.insideImpact (-10000000000000))
     = Err NumericFault /\
   convertCollateral (Scenario.insideImpact (-10000000000000))
     <> Err PositionNotOutOfRange).
Proof.
  assert (Hin : insideRange (100, 200) 150) by (unfold insideRange; simpl; lia).
  assert (Hfault : convertCollateral (Scenario.insideImpact (-10000000000000))
                   = Err NumericFault) by (vm_compute; reflexivity).
  split; [| split].
  - split; [reflexivity |]. split; [exact Hin |]. split; [reflexivity |].
    split; [reflexivity | discriminate].
  - split; [reflexivity |]. split; [exact Hin |].
    split; [reflexivity | discriminate].
  - split; [reflexivity |]. split; [exact Hin |].
    split; [exact Hfault |]. rewrite Hfault. discriminate.
Qed.

(** ** The directive *)

Section Directive.

Context `{Collaborators}.

Variable this : CrocReposition.

(** The tokens, the swap fraction and the spot price determine the
    directive, leg by leg. *)
Lemma formatDirective_built (base : bool) (fraction : Z) (price : Q) :
  isBaseOutOfRange this = OK base ->
  swapFraction this = OK fraction ->
  spotPrice this = OK price ->
  formatDirective this = OK
    {| open :=
         {| token := tokenAddr (if base then baseToken (pool this)
                                else quoteToken (pool this));
            limitQty := 0 |};
       hops := [
         {| settlement :=
              {| token := tokenAddr (if base then quoteToken (pool this)
                                     else baseToken (pool this));
                 limitQty := 0 |};
            pools := [
              {| poolIdx := chain_poolIndex (pool this);
                 passive := Some (RangeBurn (fst (burnRange this))
                                    (snd (burnRange this)) (liquidity this) 0);
                 swap :=
                   {| isBuy := base; inBaseQty := base; swap_rollType := 4;
                      qty := fraction;
                      limitPrice :=
                        encodeCrocPrice
                          (fmul price (if base then fadd 1 (impact this)
                                       else fsub 1 (impact this))) |};
                 chain := {| swapDefer := true |} |};
              {| poolIdx := chain_poolIndex (pool this);
                 passive := Some match mintRange this with
                                 | Ambient => AmbientMint 0 5
                                 | MintTicks range =>
                                     RangeMint (fst range) (snd range) 0 5
                                 end;
                 swap := blankSwap;
                 chain := {| swapDefer := false |} |} ] |} ] |}.
Proof.
  intros Hbase Hfraction Hprice.
  unfold formatDirective, pivotTokens, setupSwap.
  rewrite Hbase, Hfraction, Hprice.
  destruct base, (mintRange this); reflexivity.
Qed.

Lemma formatDirective_inv (d : OrderDirective) :
  formatDirective this = OK d ->
  exists base fraction price,
    isBaseOutOfRange this = OK base /\
    swapFraction this = OK fraction /\
    spotPrice this = OK price.
Proof.
  unfold formatDirective, pivotTokens, setupSwap.
  destruct (isBaseOutOfRange this) as [base|]; [| discriminate].
  destruct (swapFraction this) as [fraction|];
    [| destruct base; discriminate].
  destruct (spotPrice this) as [price|]; [| destruct base; discriminate].
  intros _. now exists base, fraction, price.
Qed.

End Directive.

(** C5, as amended.  In every directive the planner constructs, the hop
    holds exactly two pool legs with the same pool index: the first
    carries both the range burn and the swap, the second, which follows
    it, carries the mint (range or ambient) and nothing else; the limit
    quantities of the open leg and of the settlement leg are 0. *)
Theorem directive_legs_in_order `{Collaborators}
    (this : CrocReposition) (d : OrderDirective) :
  formatDirective this = OK d ->
  exists hop first second,
    hops d = [hop] /\
    pools hop = [first; second] /\
    poolLegs d = [first; second] /\
    carriesBurn first = true /\ carriesSwap first = true /\
    carriesMint first = false /\
    carriesMint second = true /\
    carriesBurn second = false /\ carriesSwap second = false /\
    poolIdx first = chain_poolIndex (pool this) /\
    poolIdx second = poolIdx first /\
    limitQty (open d) = 0 /\
    limitQty (settlement hop) = 0.
Proof.
  intros Hd.
  destruct (formatDirective_inv this d Hd)
    as (base & fraction & price & Hbase & Hfraction & Hprice).
  rewrite (formatDirective_built this base fraction price Hbase Hfraction Hprice)
    in Hd.
  injection Hd as <-.
  eexists _, _, _.
  split; [reflexivity |]. split; [reflexivity |]. split; [reflexivity |].
  split; [reflexivity |].
  split; [destruct base; reflexivity |].
  split; [reflexivity |].
  split; [destruct (mintRange this); reflexivity |].
  split; [destruct (mintRange this); reflexivity |].
  repeat split.
Qed.

Lemma directive_legs_in_order_witness :
  exists d first second,
    formatDirective Scenario.above = OK d /\
    poolLegs d = [first; second] /\
    carriesBurn first = true /\ carriesSwap first = true /\
    carriesMint second = true /\
    poolIdx second = poolIdx first.
Proof.
  assert (Hd : exists d, formatDirective Scenario.above = OK d)
    by (eexists; vm_compute; reflexivity).
  destruct Hd as [d Hd].
  destruct (directive_legs_in_order Scenario.above d Hd)
    as (hop & first & second & _ & _ & Hlegs & Hburn & Hswap & _ & Hmint
        & _ & _ & _ & Hidx & _).
  exists d, first, second. auto 10.
Defined.

(** C5, as stated, fails: above the range, with the ambient target, the
    directive has two pool legs only, the burn and the swap sit on the
    same leg, and no three legs carry burn, swap and mint in succession. *)
Lemma burn_and_swap_share_a_leg :
  exists d,
    formatDirective Scenario.above = OK d /\
    length (poolLegs d) = 2%nat /\
    (forall (i j : nat) (bl sl : PoolDirective),
       poolLegs d !! i = Some bl -> carriesBurn bl = true ->
       poolLegs d !! j = Some sl -> carriesSwap sl = true ->
       i = j) /\
    ~ burnSwapMintOnSuccessiveLegs d.
Proof.
  eexists. split; [vm_compute; reflexivity |].
  split; [reflexivity |].
  split.
  - intros i j bl sl Hi Hbl Hj Hsl.
    destruct i as [|[|i]], j as [|[|j]]; try reflexivity;
      cbn in Hi, Hj; simplify_eq; discriminate.
  - intros (i & j & k & bl & sl & ml & _ & _ & _ & _ & Hk & _ & Hij & Hjk).
    apply lookup_lt_Some in Hk. cbn in Hk. lia.
Qed.

(** ** The swap limit price *)


(** The roundings are those of the source: at the spot price 1.0 and the
    tolerance 0.001 the encoder receives 1.000999999999999889..., which a
    fixed-point encoder with six decimals turns into 1000999. *)
Lemma limit_price_rounds_as_doubles :
  fmul 1 (fadd 1 (round64 (1 # 1000)))
    = (2254051613498933 # 2251799813685248)%Q /\
  exists d leg,
    formatDirective (Scenario.aboveAt 1 (1 # 1000)) = OK d /\
    poolLegs d !! 0%nat = Some leg /\
    limitPrice (swap leg) = 1000999.
Proof.
  split; [vm_compute; reflexivity |].
  eexists _, _. split; [vm_compute; reflexivity |].
  split; reflexivity.
Qed.


(** * Further properties of the planner *)

(** ** Bounds of the burn range *)

(** X1. The upper tick of a valid burn range is outside the range and the
    lower tick is inside: at the upper tick the position counts as base
    out of range, at the lower tick and one tick below the upper tick the
    direction test raises the not-out-of-range error, and one tick below
    the lower tick the position is quote out of range. *)
Theorem burn_range_is_half_open (this : CrocReposition) (tick : Z) :
  spotTick this = OK tick ->
  validRange (burnRange this) ->
  (tick = snd (burnRange this) -> isBaseOutOfRange this = OK true) /\
  (tick = snd (burnRange this) - 1 ->
     isBaseOutOfRange this = Err PositionNotOutOfRange) /\
  (tick = fst (burnRange this) ->
     isBaseOutOfRange this = Err PositionNotOutOfRange) /\
  (tick = fst (burnRange this) - 1 -> isBaseOutOfRange this = OK false).
Proof.
  intros Hread Hvalid. unfold validRange in Hvalid.
  repeat split; intros ->.
  - apply (isBaseOutOfRange_above this _ Hread). unfold aboveRange. lia.
  - apply (isBaseOutOfRange_inside this _ Hread). unfold insideRange. lia.
  - apply (isBaseOutOfRange_inside this _ Hread). unfold insideRange. lia.
  - apply (isBaseOutOfRange_below this _ Hread Hvalid). unfold belowRange. lia.
Qed.

Lemma burn_range_is_half_open_witness :
  isBaseOutOfRange (Scenario.atTick 200) = OK true /\
  isBaseOutOfRange (Scenario.atTick 100) = Err PositionNotOutOfRange.
Proof.
  assert (Hvalid : forall t, validRange (burnRange (Scenario.atTick t)))
    by (intros t; unfold validRange; simpl; lia).
  split.
  - apply (proj1 (burn_range_is_half_open (Scenario.atTick 200) 200
                    eq_refl (Hvalid 200))).
    reflexivity.
  - apply (proj1 (proj2 (proj2 (burn_range_is_half_open (Scenario.atTick 100) 100
                                  eq_refl (Hvalid 100))))).
    reflexivity.
Defined.

(** X2. A burn range whose upper tick is not above its lower tick is
    accepted as it is: the direction test then never raises the
    not-out-of-range error, and answers true exactly when the spot tick is
    at or above the upper tick. *)
Theorem reversed_range_is_never_in_range (this : CrocReposition) (tick : Z) :
  spotTick this = OK tick ->
  snd (burnRange this) <= fst (burnRange this) ->
  isBaseOutOfRange this = OK (snd (burnRange this) <=? tick) /\
  isBaseOutOfRange this <> Err PositionNotOutOfRange.
Proof.
  intros Hread Hrev. unfold isBaseOutOfRange. rewrite Hread. unfold bind.
  destruct (Z.leb_spec (snd (burnRange this)) tick); [split; [reflexivity | discriminate] |].
  destruct (Z.ltb_spec tick (fst (burnRange this))); [| lia].
  split; [reflexivity | discriminate].
Qed.

Lemma reversed_range_is_never_in_range_witness :
  isBaseOutOfRange Scenario.reversed = OK true.
Proof.
  apply (proj1 (reversed_range_is_never_in_range Scenario.reversed 150 eq_refl
                  ltac:(simpl; lia))).
Defined.

(** ** Rejected reads *)

(** X3. When the read of the spot tick was rejected, the rejection is what
    every method that consults the direction reports: [currentCollateral],
    [mintInput], [swapOutput], [postBalance], the building of the
    directive, [rebal] and [simStatic] fail with the error of the read;
    [balancePercent] with the ambient target still returns 0.5. *)
Theorem spotTick_rejection_propagates `{Collaborators}
    (this : CrocReposition) (e : error) :
  spotTick this = Err e ->
  currentCollateral this = Err e /\
  mintInput this = Err e /\
  swapOutput this = Err e /\
  postBalance this = Err e /\
  formatDirective this = Err e /\
  rebal this = Err e /\
  simStatic this = Err e /\
  (mintRange this = Ambient -> balancePercent this = OK (1 # 2)%Q).
Proof.
  intros Hread.
  assert (Hdir : isBaseOutOfRange this = Err e)
    by (unfold isBaseOutOfRange; now rewrite Hread).
  assert (Hcur : currentCollateral this = Err e)
    by (unfold currentCollateral; now rewrite Hdir).
  assert (Hfmt : formatDirective this = Err e)
    by (unfold formatDirective, pivotTokens; now rewrite Hdir).
  split; [exact Hcur |].
  split; [unfold mintInput, mintInput_collat; now rewrite Hcur |].
  split; [unfold swapOutput, pivotTokens; now rewrite Hdir |].
  split; [unfold postBalance; now rewrite Hdir |].
  split; [exact Hfmt |].
  split; [unfold rebal; now rewrite Hfmt |].
  split; [unfold simStatic; now rewrite Hfmt |].
  apply balancePercent_of_ambient.
Qed.

Lemma spotTick_rejection_propagates_witness :
  postBalance Scenario.offline = Err RemoteReadFailure /\
  rebal Scenario.offline = Err RemoteReadFailure.
Proof.
  destruct (spotTick_rejection_propagates Scenario.offline RemoteReadFailure eq_refl)
    as (_ & _ & _ & Hpost & _ & Hrebal & _).
  split; assumption.
Defined.

(** X4. When the read of the spot price was rejected: with a concrete mint
    range, [balancePercent] and [convertCollateral] report the rejected
    read before the direction is consulted, hence also for a position
    still in range; for a position out of range, [currentCollateral] and
    [mintInput] report it, and so do the building of the directive,
    [rebal] and [simStatic] once the swap fraction is computed or the mint
    target is a range. *)
Theorem spotPrice_rejection_propagates `{Collaborators}
    (this : CrocReposition) (e : error) :
  spotPrice this = Err e ->
  (mintRange this <> Ambient ->
     balancePercent this = Err e /\ convertCollateral this = Err e) /\
  (forall tick,
     spotTick this = OK tick -> outOfRange (burnRange this) tick ->
     currentCollateral this = Err e /\
     mintInput this = Err e /\
     (mintRange this <> Ambient \/ (exists f, swapFraction this = OK f) ->
      formatDirective this = Err e /\ rebal this = Err e /\
      simStatic this = Err e)).
Proof.
  intros Hprice.
  assert (Hbal : mintRange this <> Ambient -> balancePercent this = Err e).
  { intros Hmint. unfold balancePercent.
    destruct (mintRange this); [congruence |]. now rewrite Hprice. }
  split.
  - intros Hmint. split; [now apply Hbal |].
    unfold convertCollateral, swapFraction. now rewrite (Hbal Hmint).
  - intros tick Htick Hout.
    destruct (isBaseOutOfRange_returns this tick Htick Hout) as (base & Hbase & _).
    assert (Hcur : currentCollateral this = Err e)
      by (unfold currentCollateral; now rewrite Hbase, Hprice).
    split; [exact Hcur |].
    split; [unfold mintInput, mintInput_collat; now rewrite Hcur |].
    intros Hcase.
    assert (Hfmt : formatDirective this = Err e).
    { unfold formatDirective, pivotTokens, setupSwap. rewrite Hbase.
      destruct Hcase as [Hmint | [f Hf]].
      - unfold swapFraction. rewrite (Hbal Hmint). now destruct base.
      - rewrite Hf, Hprice. now destruct base. }
    split; [exact Hfmt |].
    split; [unfold rebal | unfold simStatic]; now rewrite Hfmt.
Qed.

Lemma spotPrice_rejection_propagates_witness :
  balancePercent Scenario.priceless = Err RemoteReadFailure /\
  currentCollateral Scenario.priceless = Err RemoteReadFailure.
Proof.
  destruct (spotPrice_rejection_propagates Scenario.priceless RemoteReadFailure eq_refl)
    as [Hrange Hout].
  split.
  - apply Hrange. discriminate.
  - assert (Hexit : outOfRange (burnRange Scenario.priceless) 250)
      by (left; unfold aboveRange; simpl; lia).
    exact (proj1 (Hout 250 eq_refl Hexit)).
Defined.

(** ** The tokens of a repositioning *)

(** X5. The token [pivotTokens] puts first is the one the remainder is
    displayed in and the one the projected swap sells: whenever
    [pivotTokens] returns [sell, buy], these are the pool's two tokens in
    one order or the other, [mintInput] is the display of the remainder by
    [sell], and [swapOutput] is the swap planner's estimate for selling
    [convertCollateral] of [sell] for [buy], with the pool index of the
    chain and the planner's tolerance. *)
Theorem pivot_decides_display_and_swap `{Collaborators}
    (this : CrocReposition) (sell buy : CrocTokenView) :
  pivotTokens this = OK (sell, buy) ->
  ((sell, buy) = (baseToken (pool this), quoteToken (pool this)) \/
   (sell, buy) = (quoteToken (pool this), baseToken (pool this))) /\
  mintInput this
    = (await collat <- mintInput_collat this ;; toDisplay sell collat) /\
  swapOutput this
    = (await sellQty <- convertCollateral this ;;
       calcImpact_buyQty sell buy sellQty false
         (chain_poolIndex (pool this)) (impact this)).
Proof.
  unfold pivotTokens. intros Hpivot.
  destruct (isBaseOutOfRange this) as [base|] eqn:Hbase; [| discriminate].
  simpl in Hpivot.
  split; [destruct base; injection Hpivot as <- <-; auto |].
  split.
  - unfold mintInput. rewrite Hbase.
    destruct (mintInput_collat this); [| reflexivity].
    destruct base; injection Hpivot as <- <-; reflexivity.
  - unfold swapOutput, pivotTokens. rewrite Hbase.
    destruct base; injection Hpivot as <- <-; reflexivity.
Qed.

Lemma pivot_decides_display_and_swap_witness :
  mintInput Scenario.below
    = (await collat <- mintInput_collat Scenario.below ;;
       toDisplay (quoteToken (pool Scenario.below)) collat).
Proof.
  assert (Hpivot : pivotTokens Scenario.below
                   = OK (quoteToken (pool Scenario.below),
                         baseToken (pool Scenario.below)))
    by (vm_compute; reflexivity).
  destruct (pivot_decides_display_and_swap Scenario.below _ _ Hpivot)
    as (_ & Hdisplay & _).
  exact Hdisplay.
Defined.

(** X6. [postBalance] returns a pair exactly when the direction test,
    [mintInput] and [swapOutput] all return, and the pair is ordered base
    amount first: above the range the parsed remainder comes first and the
    parsed swap output second, below the range the other way round. *)
Theorem postBalance_is_base_then_quote `{Collaborators}
    (this : CrocReposition) (baseAmount quoteAmount : Q) :
  postBalance this = OK (baseAmount, quoteAmount) <->
  exists base outside inside,
    isBaseOutOfRange this = OK base /\
    mintInput this = OK outside /\
    swapOutput this = OK inside /\
    (baseAmount, quoteAmount)
      = if base then (parseFloat outside, parseFloat inside)
        else (parseFloat inside, parseFloat outside).
Proof.
  unfold postBalance, then_. split.
  - destruct (isBaseOutOfRange this) as [base|]; [| discriminate].
    destruct (mintInput this) as [outside|], (swapOutput this) as [inside|];
      destruct base; simpl; try discriminate;
      intros [= <- <-];
      [now exists true, outside, inside | now exists false, outside, inside].
  - intros (base & outside & inside & -> & -> & -> & Hpair).
    destruct base; simpl; now rewrite Hpair.
Qed.

(** ** The content of the directive *)

Lemma swapFraction_at_most_scale `{Collaborators}
    (this : CrocReposition) (fraction : Z) :
  swapFraction this = OK fraction -> fraction <= 10000.
Proof.
  unfold swapFraction. destruct (balancePercent this) as [bal|]; [| discriminate].
  unfold bind, BigNumber_from.
  destruct (_ || _); [discriminate |]. intros [= <-].
  apply (scaledFraction_le (bal + impact this)).
Qed.

(** X7. The directive opens with the token [pivotTokens] puts first and
    hops to the other one: the open leg holds the address of the token
    the position is left with, the settlement leg of the single hop holds
    the address of the token to acquire. *)
Theorem directive_opens_with_sell_token `{Collaborators}
    (this : CrocReposition) (d : OrderDirective) :
  formatDirective this = OK d ->
  exists sell buy hop,
    pivotTokens this = OK (sell, buy) /\
    token (open d) = tokenAddr sell /\
    hops d = [hop] /\
    token (settlement hop) = tokenAddr buy.
Proof.
  intros Hd.
  destruct (formatDirective_inv this d Hd)
    as (base & fraction & price & Hbase & Hfraction & Hprice).
  rewrite (formatDirective_built this base fraction price Hbase Hfraction Hprice)
    in Hd.
  injection Hd as <-.
  unfold pivotTokens. rewrite Hbase.
  destruct base; eexists _, _, _; repeat split.
Qed.

Lemma directive_opens_with_sell_token_witness :
  exists d,
    formatDirective Scenario.below = OK d /\
    token (open d) = tokenAddr (quoteToken (pool Scenario.below)).
Proof.
  assert (Hd : exists d, formatDirective Scenario.below = OK d)
    by (eexists; vm_compute; reflexivity).
  destruct Hd as [d Hd].
  destruct (directive_opens_with_sell_token Scenario.below d Hd)
    as (sell & buy & hop & Hpivot & Hopen & _).
  exists d. split; [exact Hd |].
  rewrite Hopen. injection Hpivot as <- _. reflexivity.
Defined.

(** X8. The swap of the directive is sized as a fraction, not as an
    amount: the first pool leg defers the swap, and its swap has roll
    type 4, the swap fraction as quantity (at most 10000), and both its
    direction flags equal to the answer of the direction test. *)
Theorem directive_swap_is_the_fraction `{Collaborators}
    (this : CrocReposition) (d : OrderDirective) :
  formatDirective this = OK d ->
  exists base fraction leg,
    isBaseOutOfRange this = OK base /\
    swapFraction this = OK fraction /\
    poolLegs d !! 0%nat = Some leg /\
    swapDefer (chain leg) = true /\
    swap_rollType (swap leg) = 4 /\
    qty (swap leg) = fraction /\
    qty (swap leg) <= 10000 /\
    isBuy (swap leg) = base /\
    inBaseQty (swap leg) = base.
Proof.
  intros Hd.
  destruct (formatDirective_inv this d Hd)
    as (base & fraction & price & Hbase & Hfraction & Hprice).
  rewrite (formatDirective_built this base fraction price Hbase Hfraction Hprice)
    in Hd.
  injection Hd as <-.
  exists base, fraction. eexists.
  split; [exact Hbase |]. split; [exact Hfraction |].
  split; [reflexivity |].
  repeat split. simpl. now apply (swapFraction_at_most_scale this).
Qed.

Lemma directive_swap_is_the_fraction_witness :
  exists d leg,
    formatDirective Scenario.above = OK d /\
    poolLegs d !! 0%nat = Some leg /\
    qty (swap leg) = 5200.
Proof.
  assert (Hd : exists d, formatDirective Scenario.above = OK d)
    by (eexists; vm_compute; reflexivity).
  destruct Hd as [d Hd].
  destruct (directive_swap_is_the_fraction Scenario.above d Hd)
    as (base & fraction & leg & _ & Hfraction & Hleg & _ & _ & Hqty & _).
  exists d, leg. split; [exact Hd |]. split; [exact Hleg |].
  rewrite Hqty. vm_compute in Hfraction. now injection Hfraction as <-.
Defined.

(** X9. The liquidity legs of the directive: the first pool leg burns the
    planner's whole liquidity on its burn range; the second mints on the
    mint target with liquidity 0 and roll type 5, so that the quantity is
    whatever the burn and the swap have rolled up; the second leg's swap
    is left blank and not deferred. *)
Theorem directive_burns_all_and_mints_rolled `{Collaborators}
    (this : CrocReposition) (d : OrderDirective) :
  formatDirective this = OK d ->
  exists first second,
    poolLegs d = [first; second] /\
    passive first
      = Some (RangeBurn (fst (burnRange this)) (snd (burnRange this))
                (liquidity this) 0) /\
    passive second
      = Some match mintRange this with
             | Ambient => AmbientMint 0 5
             | MintTicks range => RangeMint (fst range) (snd range) 0 5
             end /\
    swap second = blankSwap /\
    swapDefer (chain second) = false.
Proof.
  intros Hd.
  destruct (formatDirective_inv this d Hd)
    as (base & fraction & price & Hbase & Hfraction & Hprice).
  rewrite (formatDirective_built this base fraction price Hbase Hfraction Hprice)
    in Hd.
  injection Hd as <-.
  eexists _, _. repeat split.
Qed.

Lemma directive_burns_all_and_mints_rolled_witness :
  exists d first second,
    formatDirective Scenario.aboveToRange = OK d /\
    poolLegs d = [first; second] /\
    passive first = Some (RangeBurn 100 200 1000000 0) /\
    passive second = Some (RangeMint 200 300 0 5).
Proof.
  assert (Hd : exists d, formatDirective Scenario.aboveToRange = OK d)
    by (eexists; vm_compute; reflexivity).
  destruct Hd as [d Hd].
  destruct (directive_burns_all_and_mints_rolled Scenario.aboveToRange d Hd)
    as (first & second & Hlegs & Hburn & Hmint & _).
  exists d, first, second. auto.
Defined.

(** X10. The directive is built exactly when the direction test, the swap
    fraction and the read of the spot price all succeed; otherwise the
    building fails with the first failure in that order: the error of the
    direction test, else the error of the swap fraction, else the rejected
    read of the price. *)
Theorem formatDirective_fails_in_order `{Collaborators} (this : CrocReposition) :
  ((exists d, formatDirective this = OK d) <->
   (exists base fraction price,
      isBaseOutOfRange this = OK base /\
      swapFraction this = OK fraction /\
      spotPrice this = OK price)) /\
  (forall e, isBaseOutOfRange this = Err e -> formatDirective this = Err e) /\
  (forall base e,
     isBaseOutOfRange this = OK base -> swapFraction this = Err e ->
     formatDirective this = Err e) /\
  (forall base fraction e,
     isBaseOutOfRange this = OK base -> swapFraction this = OK fraction ->
     spotPrice this = Err e ->
     formatDirective this = Err e).
Proof.
  split; [split |].
  - intros [d Hd]. exact (formatDirective_inv this d Hd).
  - intros (base & fraction & price & Hbase & Hfraction & Hprice).
    eexists. exact (formatDirective_built this base fraction price
                      Hbase Hfraction Hprice).
  - unfold formatDirective, pivotTokens, setupSwap.
    split; [| split].
    + intros e ->. reflexivity.
    + intros base e -> ->. now destruct base.
    + intros base fraction e -> -> ->. now destruct base.
Qed.

(** ** Submission *)

(** X11. [rebal] returns a transaction exactly when the directive is
    built, the gas estimate for its encoding on the long-form proxy path
    succeeds and the submission of the same bytes on the same path, with
    the estimate plus [GAS_PADDING] as gas limit, succeeds; a rejected
    estimate is the error of [rebal].  [simStatic] is the static call on
    the same bytes and path. *)
Theorem rebal_pads_the_gas_estimate `{Collaborators}
    (this : CrocReposition) (tx : TransactionResponse) :
  (rebal this = OK tx <->
   exists d gasEst,
     formatDirective this = OK d /\
     estimateGas_userCmd (proxyPaths_long (pool this)) (encodeBytes d)
       = OK gasEst /\
     userCmd (proxyPaths_long (pool this)) (encodeBytes d)
       (gasEst + GAS_PADDING) = OK tx) /\
  (forall d e,
     formatDirective this = OK d ->
     estimateGas_userCmd (proxyPaths_long (pool this)) (encodeBytes d) = Err e ->
     rebal this = Err e) /\
  (forall d,
     formatDirective this = OK d ->
     simStatic this
       = callStatic_userCmd (proxyPaths_long (pool this)) (encodeBytes d)).
Proof.
  unfold rebal, simStatic. split; [split |].
  - destruct (formatDirective this) as [d|]; [| discriminate]. unfold bind.
    destruct (estimateGas_userCmd _ _) as [gasEst|] eqn:Hgas; [| discriminate].
    intros Htx. now exists d, gasEst.
  - intros (d & gasEst & -> & Hgas & Htx). unfold bind. now rewrite Hgas.
  - split.
    + intros d e -> Hgas. unfold bind. now rewrite Hgas.
    + intros d ->. reflexivity.
Qed.

(** ** Sizing the swap *)

Lemma swapFraction_is_scaled `{Collaborators}
    (this : CrocReposition) (bal : Q) (fraction : Z) :
  balancePercent this = OK bal ->
  swapFraction this = OK fraction ->
  fraction = scaledFraction (bal + impact this).
Proof.
  unfold swapFraction. intros ->. unfold bind, BigNumber_from.
  destruct (_ || _); [discriminate |]. now intros [= <-].
Qed.

Lemma scaledFraction_monotone (p q : Q) :
  (p <= q)%Q -> scaledFraction p <= scaledFraction q.
Proof.
  intros Hle. unfold scaledFraction, fmul. apply Qfloor_resp_le.
  apply round64_le.
  pose proof (Q.min_le_compat_r _ _ 1 (round64_le p q Hle)). lra.
Qed.

(** X12. A larger tolerance never shrinks the swap: of two planners, the
    one whose balance fraction plus tolerance is larger has the larger or
    equal swap fraction and, on the same non-negative collateral, converts
    the larger or equal amount. *)
Theorem swap_grows_with_tolerance `{Collaborators}
    (this that : CrocReposition) (bal bal' : Q)
    (fraction fraction' collat converted converted' : Z) :
  balancePercent this = OK bal ->
  balancePercent that = OK bal' ->
  (bal + impact this <= bal' + impact that)%Q ->
  swapFraction this = OK fraction ->
  swapFraction that = OK fraction' ->
  fraction <= fraction' /\
  (0 <= collat ->
   currentCollateral this = OK collat ->
   currentCollateral that = OK collat ->
   convertCollateral this = OK converted ->
   convertCollateral that = OK converted' ->
   converted <= converted').
Proof.
  intros Hbal Hbal' Hle Hf Hf'.
  assert (Hmono : fraction <= fraction').
  { rewrite (swapFraction_is_scaled this bal fraction Hbal Hf).
    rewrite (swapFraction_is_scaled that bal' fraction' Hbal' Hf').
    now apply scaledFraction_monotone. }
  split; [exact Hmono |].
  intros Hnn Hc Hc'. unfold convertCollateral.
  rewrite Hf, Hf', Hc, Hc'. unfold bind, BigNumber_div.
  intros [= <-] [= <-].
  apply Z.quot_le_mono; nia.
Qed.

Lemma swap_grows_with_tolerance_witness :
  exists fraction fraction',
    swapFraction (Scenario.aboveImpact (1 # 100)) = OK fraction /\
    swapFraction (Scenario.aboveImpact (1 # 10)) = OK fraction' /\
    fraction <= fraction'.
Proof.
  exists 5100, 6000.
  assert (Hf : swapFraction (Scenario.aboveImpact (1 # 100)) = OK 5100)
    by (vm_compute; reflexivity).
  assert (Hf' : swapFraction (Scenario.aboveImpact (1 # 10)) = OK 6000)
    by (vm_compute; reflexivity).
  split; [exact Hf |]. split; [exact Hf' |].
  apply (swap_grows_with_tolerance
           (Scenario.aboveImpact (1 # 100)) (Scenario.aboveImpact (1 # 10))
           (1 # 2) (1 # 2) 5100 6000 0 0 0
           eq_refl eq_refl ltac:(vm_compute; discriminate) Hf Hf').
Defined.

(** X13. Once the balance fraction plus the tolerance reaches 1, the whole
    collateral goes through the swap: for a position that has left its
    range, the swap fraction is 10000, [convertCollateral] equals
    [currentCollateral] and the remainder displayed by [mintInput] is 0. *)
Theorem saturated_swap_converts_everything `{Collaborators}
    (this : CrocReposition) (price : Q) (tick : Z) (bal : Q) :
  spotState this price tick ->
  outOfRange (burnRange this) tick ->
  balancePercent this = OK bal ->
  (1 <= bal + impact this)%Q ->
  swapFraction this = OK 10000 /\
  exists collat,
    currentCollateral this = OK collat /\
    convertCollateral this = OK collat /\
    mintInput_collat this = OK 0.
Proof.
  intros Hsnap Hout Hbal Hsat.
  assert (Hf : swapFraction this = OK 10000).
  { rewrite (swapFraction_of_balance this bal Hbal) by lra.
    now rewrite scaledFraction_full. }
  split; [exact Hf |].
  destruct (currentCollateral_returns this price tick Hsnap Hout)
    as (collat & Hcollat & _).
  exists collat. split; [exact Hcollat |].
  assert (Hconv : convertCollateral this = OK collat).
  { unfold convertCollateral. rewrite Hf, Hcollat. unfold bind, BigNumber_div.
    now rewrite Z.quot_mul. }
  split; [exact Hconv |].
  unfold mintInput_collat. rewrite Hcollat, Hconv. unfold bind.
  now rewrite Z.sub_diag.
Qed.

Lemma saturated_swap_converts_everything_witness :
  swapFraction (Scenario.aboveImpact (6 # 10)) = OK 10000 /\
  mintInput_collat (Scenario.aboveImpact (6 # 10)) = OK 0.
Proof.
  destruct (saturated_swap_converts_everything
              (Scenario.aboveImpact (6 # 10)) (round64 (1025 # 1000)) 250 (1 # 2))
    as (Hf & collat & _ & _ & Hrem).
  - split; reflexivity.
  - left. unfold aboveRange. simpl. lia.
  - reflexivity.
  - vm_compute. discriminate.
  - split; assumption.
Defined.

(** X14. [convertCollateral] is the exact share rounded down: for a
    position that has left its range, a balance fraction in [0, 1], a
    tolerance in [0, 1] and absolute collateral amounts, the converted
    amount is not negative, falls short of
    [currentCollateral * swapFraction / 10000] by less than one smallest
    unit, and the remainder does not exceed the collateral. *)
Theorem convertCollateral_rounds_down `{Collaborators}
    (this : CrocReposition) (price : Q) (tick : Z) :
  spotState this price tick ->
  outOfRange (burnRange this) tick ->
  depositBalanceIsFraction this ->
  collateralIsAbsolute this ->
  (0 <= impact this <= 1)%Q ->
  exists collat fraction converted remainder,
    currentCollateral this = OK collat /\
    swapFraction this = OK fraction /\
    convertCollateral this = OK converted /\
    mintInput_collat this = OK remainder /\
    0 <= converted /\
    10000 * converted <= collat * fraction < 10000 * converted + 10000 /\
    remainder <= collat.
Proof.
  intros Hsnap Hout Hfrac Habs Htol.
  destruct (collateral_split this price tick Hsnap Hout Hfrac Htol)
    as (collat & fraction & Hc & Hf & [Hf0 Hf1] & Hconv & Hrem & Hnn).
  specialize (Hnn Habs).
  exists collat, fraction, (BigNumber_div (collat * fraction) 10000),
    (collat - BigNumber_div (collat * fraction) 10000).
  repeat (split; [assumption |]).
  unfold BigNumber_div. rewrite Z.quot_div_nonneg by nia.
  pose proof (Z.div_mod (collat * fraction) 10000 ltac:(lia)).
  pose proof (Z.mod_pos_bound (collat * fraction) 10000 ltac:(lia)).
  assert (0 <= collat * fraction / 10000) by (apply Z.div_pos; nia).
  lia.
Qed.

Lemma convertCollateral_rounds_down_witness :
  exists converted,
    convertCollateral Scenario.aboveToRange = OK converted /\
    0 <= converted.
Proof.
  destruct (convertCollateral_rounds_down Scenario.aboveToRange (round64 (1025 # 1000)) 250)
    as (collat & fraction & converted & remainder & _ & _ & Hconv & _ & Hnn & _).
  - split; reflexivity.
  - left. unfold aboveRange. simpl. lia.
  - vm_compute. split; discriminate.
  - intros p _. split; apply Z.le_max_l.
  - vm_compute. split; discriminate.
  - exists converted. split; assumption.
Defined.

(** X15. A negative swap fraction is not rejected: for a position that has
    left its range and holds absolute collateral, when the swap fraction
    is negative (a negative tolerance), [convertCollateral] returns an
    amount that is not positive and the remainder displayed by [mintInput]
    is at least the whole collateral. *)
Theorem negative_fraction_is_carried_through `{Collaborators}
    (this : CrocReposition) (price : Q) (tick : Z) (fraction : Z) :
  spotState this price tick ->
  outOfRange (burnRange this) tick ->
  collateralIsAbsolute this ->
  swapFraction this = OK fraction ->
  fraction < 0 ->
  exists collat converted remainder,
    currentCollateral this = OK collat /\
    convertCollateral this = OK converted /\
    mintInput_collat this = OK remainder /\
    converted <= 0 /\
    collat <= remainder.
Proof.
  intros Hsnap Hout Habs Hf Hneg.
  destruct (currentCollateral_returns this price tick Hsnap Hout)
    as (collat & Hcollat & Hnn).
  specialize (Hnn Habs).
  assert (Hconv : convertCollateral this
                  = OK (BigNumber_div (collat * fraction) 10000)).
  { unfold convertCollateral. now rewrite Hf, Hcollat. }
  exists collat, (BigNumber_div (collat * fraction) 10000),
    (collat - BigNumber_div (collat * fraction) 10000).
  split; [exact Hcollat |]. split; [exact Hconv |].
  split; [unfold mintInput_collat; now rewrite Hcollat, Hconv |].
  assert (BigNumber_div (collat * fraction) 10000 <= 0); [| lia].
  unfold BigNumber_div.
  rewrite <- (Z.opp_involutive (collat * fraction)).
  rewrite Z.quot_opp_l by lia.
  assert (0 <= (- (collat * fraction)) ÷ 10000); [| lia].
  apply Z.quot_pos; nia.
Qed.

Lemma negative_fraction_is_carried_through_witness :
  exists collat remainder,
    currentCollateral Scenario.aboveNegativeImpact = OK collat /\
    mintInput_collat Scenario.aboveNegativeImpact = OK remainder /\
    collat <= remainder.
Proof.
  destruct (negative_fraction_is_carried_through
              Scenario.aboveNegativeImpact (round64 (1025 # 1000)) 250 (-5000))
    as (collat & converted & remainder & Hc & _ & Hrem & _ & Hle).
  - split; reflexivity.
  - left. unfold aboveRange. simpl. lia.
  - intros p _. split; apply Z.le_max_l.
  - vm_compute. reflexivity.
  - lia.
  - exists collat, remainder. auto.
Defined.

(** X16. With the ambient mint target the swap fraction does not depend on
    the pool: whatever the snapshot holds (a rejected read, a tick inside
    the range), a tolerance that is not negative gives a swap fraction
    between 5000 and 10000, and a planner constructed without an impact
    option, or with impact 0, has the swap fraction 5200. *)
Theorem ambient_swaps_at_least_half `{Collaborators} (this : CrocReposition) :
  mintRange this = Ambient ->
  ((0 <= impact this)%Q ->
   exists fraction,
     swapFraction this = OK fraction /\ 5000 <= fraction <= 10000) /\
  ((impact this == DEFAULT_REBAL_SLIPPAGE)%Q -> swapFraction this = OK 5200).
Proof.
  intros Hmint.
  pose proof (balancePercent_of_ambient this Hmint) as Hbal.
  split.
  - intros Hnn. exists (scaledFraction ((1 # 2) + impact this)).
    split; [apply swapFraction_of_balance; [exact Hbal | lra] |].
    split; [| apply scaledFraction_le].
    replace 5000 with (scaledFraction (1 # 2)) by (vm_compute; reflexivity).
    apply scaledFraction_monotone. lra.
  - intros Hdefault.
    assert (Hnn : (0 <= DEFAULT_REBAL_SLIPPAGE)%Q) by (vm_compute; discriminate).
    rewrite (swapFraction_of_balance this (1 # 2) Hbal)
      by (rewrite Hdefault; lra).
    f_equal.
    assert (Hval : scaledFraction ((1 # 2) + DEFAULT_REBAL_SLIPPAGE) = 5200)
      by (vm_compute; reflexivity).
    rewrite <- Hval.
    apply Z.le_antisymm; apply scaledFraction_monotone; rewrite Hdefault; lra.
Qed.

Lemma ambient_swaps_at_least_half_witness :
  swapFraction Scenario.inside = OK 5200.
Proof.
  apply (proj2 (ambient_swaps_at_least_half Scenario.inside eq_refl)).
  reflexivity.
Defined.

(** ** The balance target fraction, continued *)

(** X18. For a position that has left its valid burn range and a concrete
    mint range, [balancePercent] returns the deposit balance of the mint
    range at the spot price when the position is quote out of range and
    1 minus it, as the doubles subtract, when it is base out of range;
    when the deposit balance is a fraction in [0, 1], so is the result. *)
Theorem balancePercent_is_direction_adjusted `{Collaborators}
    (this : CrocReposition) (price : Q) (tick : Z) (range : TickRange) :
  spotState this price tick ->
  validRange (burnRange this) ->
  mintRange this = MintTicks range ->
  let deposit :=
    concDepositBalance price (tickToPrice (fst range)) (tickToPrice (snd range)) in
  (aboveRange (burnRange this) tick ->
     balancePercent this = OK (fsub 1 deposit)) /\
  (belowRange (burnRange this) tick -> balancePercent this = OK deposit) /\
  (outOfRange (burnRange this) tick -> (0 <= deposit <= 1)%Q ->
     exists bal, balancePercent this = OK bal /\ (0 <= bal <= 1)%Q).
Proof.
  intros [Hprice Htick] Hvalid Hmint deposit.
  unfold balancePercent. rewrite Hmint, Hprice. unfold bind.
  split; [| split].
  - intros Ha. now rewrite (isBaseOutOfRange_above this tick Htick Ha).
  - intros Hb. now rewrite (isBaseOutOfRange_below this tick Htick Hvalid Hb).
  - intros Hout Hfrac.
    destruct (isBaseOutOfRange_returns this tick Htick Hout) as (base & -> & _).
    fold deposit. destruct base; eexists; (split; [reflexivity |]); [| lra].
    unfold fsub. split; [apply round64_nonneg | apply round64_le_1]; lra.
Qed.

Lemma balancePercent_is_direction_adjusted_witness :
  exists bal,
    balancePercent Scenario.aboveToRange = OK bal /\ (0 <= bal <= 1)%Q.
Proof.
  apply (proj2 (proj2 (balancePercent_is_direction_adjusted
                         Scenario.aboveToRange (round64 (1025 # 1000)) 250 (200, 300)
                         (conj eq_refl eq_refl)
                         ltac:(unfold validRange; simpl; lia) eq_refl))).
  - left. unfold aboveRange. simpl. lia.
  - vm_compute. split; discriminate.
Defined.

(** * The convert page *)

Lemma find_token_spec (wanted : string) (tokens : list string) :
  match ConvertPage.find_token wanted tokens with
  | Some token => token = wanted /\ In wanted tokens
  | None => ~ In wanted tokens
  end.
Proof.
  unfold ConvertPage.find_token.
  induction tokens as [|t tokens IH]; simpl; [tauto |].
  destruct (String.eqb_spec t wanted) as [-> | Hne].
  - split; [reflexivity | now left].
  - destruct (find _ tokens).
    + destruct IH as [-> Hin]. split; [reflexivity | now right].
    + intros [Heq | Hin]; [congruence | contradiction].
Qed.

(** X19. The token a price is quoted in is the destination token exactly
    when a destination is selected (not the empty string) and either the
    price is asked in the quote or the destination is one of the
    stablecoins of the smart router; in every other case it is the source
    token.  The search through the stablecoins amounts to a membership
    test. *)
Theorem priceToken_is_destination_iff
    (stablecoins : list string) (destinationToken sourceToken : string)
    (priceInQuote : bool) :
  (destinationToken <> ""%string /\
   (priceInQuote = true \/ In destinationToken stablecoins) ->
   ConvertPage.priceToken stablecoins destinationToken sourceToken priceInQuote
     = destinationToken) /\
  (destinationToken = ""%string \/
   (priceInQuote = false /\ ~ In destinationToken stablecoins) ->
   ConvertPage.priceToken stablecoins destinationToken sourceToken priceInQuote
     = sourceToken).
Proof.
  unfold ConvertPage.priceToken, ConvertPage.truthyString.
  pose proof (find_token_spec destinationToken stablecoins) as Hfind.
  destruct (String.eqb_spec destinationToken "") as [-> | Hne]; simpl.
  - split; [intros [Hne _]; congruence | reflexivity].
  - destruct (ConvertPage.find_token destinationToken stablecoins) as [token|].
    + destruct Hfind as [-> Hin].
      destruct (String.eqb_spec destinationToken "") as [| _]; [congruence |].
      rewrite Bool.orb_true_r. simpl.
      split; [reflexivity |]. intros [Heq | [_ Hnin]]; [congruence | contradiction].
    + rewrite Bool.orb_false_r.
      destruct priceInQuote; simpl.
      * split; [reflexivity |]. intros [Heq | [Hq _]]; congruence.
      * split; [| reflexivity]. intros [_ [Hq | Hin]]; [discriminate | contradiction].
Qed.
